(** * An in-memory Kanban board: store operations and drag session

    Shallow embedding of [hooks/use-board.ts] (the ordered-collection
    store), [utils/id.ts] and the drag handlers of [components/board/Board.tsx].

    Conventions.
    - JavaScript numbers used as indices are integers, modelled as [Z]
      ([findIndex] answers [-1]; [splice] accepts negative starts).
    - Arrays are lists; [Array.prototype.splice] is modelled in full for the
      argument shapes the code uses (see [splice]).
    - Every [setBoard (prev => ...)] updater is a function [Board -> Board].
    - Object references obtained with [find] inside [moveCard] are modelled
      as positions in the freshly copied array, so that the two in-place
      [splice] calls act on one shared store.
    - A drag handler runs to completion on the board left by the previous
      one; React state and refs of the Board component form the [Session].
    - Pixel coordinates are rationals; the strategies of the drag-and-drop
      library ([closestCenter], [pointerWithin], [rectIntersection]) are
      parameters of the resolver. *)

From stdpp Require Import base decidable option list numbers strings sorting.
From Stdlib Require Import QArith.

Local Open Scope string_scope.
Local Open Scope list_scope.
Local Open Scope Z_scope.

(** * Data model ([types/board.ts]) *)

Definition Id := string.

Record Comment := mkComment {
  comment_id : Id;
  comment_text : string;
  comment_author : string;
  comment_createdAt : string
}.

Record Card := mkCard {
  card_id : Id;
  card_title : string;
  comments : list Comment;
  card_createdAt : string
}.

Record List := mkList {
  list_id : Id;
  list_title : string;
  cards : list Card
}.

Record Board := mkBoard {
  board_id : Id;
  board_title : string;
  lists : list List
}.

#[global] Instance Comment_eq_dec : EqDecision Comment.
Proof. solve_decision. Defined.
#[global] Instance Card_eq_dec : EqDecision Card.
Proof. solve_decision. Defined.
#[global] Instance List_eq_dec : EqDecision List.
Proof. solve_decision. Defined.
#[global] Instance Board_eq_dec : EqDecision Board.
Proof. solve_decision. Defined.

(** [DEFAULT_BOARD], the initial board; the three creation timestamps are
    read from the clock when the module loads. *)
Definition DEFAULT_BOARD (t1 t2 t3 : string) : Board :=
  {| board_id := "board-1";
     board_title := "Demo Board";
     lists :=
       [ {| list_id := "list-1"; list_title := "Todo";
            cards :=
              [ {| card_id := "card-1";
                   card_title := "Create interview Kanban";
                   comments := []; card_createdAt := t1 |};
                {| card_id := "card-2";
                   card_title := "Review Drag & Drop";
                   comments := []; card_createdAt := t2 |} ] |};
         {| list_id := "list-2"; list_title := "In Progress";
            cards :=
              [ {| card_id := "card-3";
                   card_title := "Set up Next.js project";
                   comments := []; card_createdAt := t3 |} ] |};
         {| list_id := "list-3"; list_title := "Done"; cards := [] |} ] |}.

(** * JavaScript array primitives *)

(** [ToIntegerOrInfinity] followed by the clamping of a relative start
    index, as [splice] does it: a negative start counts from the end. *)
Definition actualStart (len : nat) (start : Z) : nat :=
  Z.to_nat (if bool_decide (start < 0)
            then Z.max (Z.of_nat len + start) 0
            else Z.min start (Z.of_nat len)).

(** [arr.splice(start, deleteCount, ...items)]: the removed elements and the
    array afterwards. *)
Definition splice {A} (arr : list A) (start : Z) (deleteCount : nat)
    (items : list A) : list A * list A :=
  let k := actualStart (length arr) start in
  (take deleteCount (drop k arr),
   take k arr ++ items ++ drop (k + deleteCount) arr).

(** [arr.findIndex(p)], [-1] when nothing matches. *)
Definition findIndex {A} (P : A → Prop) `{!∀ x, Decision (P x)}
    (arr : list A) : Z :=
  match list_find P arr with
  | Some (i, _) => Z.of_nat i
  | None => -1
  end.

(** [arr.find(p)] as a reference: the position of the first match. *)
Definition find_ref {A} (P : A → Prop) `{!∀ x, Decision (P x)}
    (arr : list A) : option nat :=
  fst <$> list_find P arr.

(** [arr.find(p)] as a value. *)
Definition find {A} (P : A → Prop) `{!∀ x, Decision (P x)}
    (arr : list A) : option A :=
  snd <$> list_find P arr.

(** * Id supplier ([utils/id.ts]) *)

(** [generateId(prefix)]; the uuid is supplied by the caller. *)
Definition generateId (uuid : string) (prefix : string) : Id :=
  if bool_decide (prefix = EmptyString) then uuid else prefix +:+ "-" +:+ uuid.

(** * The store ([hooks/use-board.ts]) *)

Definition updateBoardTitle (title : string) (prev : Board) : Board :=
  {| board_id := board_id prev; board_title := title; lists := lists prev |}.

Definition addList (uuid : string) (title : string) (prev : Board) : Board :=
  let newList := {| list_id := generateId uuid "list"; list_title := title;
                    cards := [] |} in
  {| board_id := board_id prev; board_title := board_title prev;
     lists := lists prev ++ [newList] |}.

Definition deleteList (listId : Id) (prev : Board) : Board :=
  {| board_id := board_id prev; board_title := board_title prev;
     lists := filter (λ list, list_id list ≠ listId) (lists prev) |}.

Definition updateListTitle (listId : Id) (title : string) (prev : Board)
    : Board :=
  {| board_id := board_id prev; board_title := board_title prev;
     lists := (λ list,
        if bool_decide (list_id list = listId)
        then {| list_id := list_id list; list_title := title;
                cards := cards list |}
        else list) <$> lists prev |}.

(** The value [moveList] hands to [setBoard]. The destructured [moved] is
    [undefined] when [splice] removed nothing, and it is inserted all the
    same, so a cell of the resulting array is optional. *)
Record RawBoard := mkRawBoard {
  raw_id : Id;
  raw_title : string;
  raw_lists : list (option List)
}.

Definition to_raw (b : Board) : RawBoard :=
  {| raw_id := board_id b; raw_title := board_title b;
     raw_lists := Some <$> lists b |}.

Definition moveList (fromIndex toIndex : Z) (prev : Board) : RawBoard :=
  let newLists := lists prev in
  let '(removed, newLists) := splice newLists fromIndex 1 [] in
  let moved := head removed in
  let '(_, newLists) := splice (Some <$> newLists) toIndex 0 [moved] in
  {| raw_id := board_id prev; raw_title := board_title prev;
     raw_lists := newLists |}.

Definition addCard (uuid now : string) (listId : Id) (title : string)
    (prev : Board) : Board :=
  let newCard := {| card_id := generateId uuid "card"; card_title := title;
                    comments := []; card_createdAt := now |} in
  {| board_id := board_id prev; board_title := board_title prev;
     lists := (λ list,
        if bool_decide (list_id list = listId)
        then {| list_id := list_id list; list_title := list_title list;
                cards := cards list ++ [newCard] |}
        else list) <$> lists prev |}.

Definition deleteCard (listId cardId : Id) (prev : Board) : Board :=
  {| board_id := board_id prev; board_title := board_title prev;
     lists := (λ list,
        if bool_decide (list_id list = listId)
        then {| list_id := list_id list; list_title := list_title list;
                cards := filter (λ c, card_id c ≠ cardId) (cards list) |}
        else list) <$> lists prev |}.

Definition updateCardTitle (listId cardId : Id) (title : string)
    (prev : Board) : Board :=
  {| board_id := board_id prev; board_title := board_title prev;
     lists := (λ list,
        if bool_decide (list_id list = listId)
        then {| list_id := list_id list; list_title := list_title list;
                cards := (λ card,
                   if bool_decide (card_id card = cardId)
                   then {| card_id := card_id card; card_title := title;
                           comments := comments card;
                           card_createdAt := card_createdAt card |}
                   else card) <$> cards list |}
        else list) <$> lists prev |}.

(** Reading and writing the [cards] field through a reference. *)
Definition cards_at (ref : nat) (store : list List) : list Card :=
  from_option cards [] (store !! ref).

Definition with_cards (cs : list Card) (l : List) : List :=
  {| list_id := list_id l; list_title := list_title l; cards := cs |}.

Definition set_cards (ref : nat) (cs : list Card) (store : list List)
    : list List :=
  alter (with_cards cs) ref store.

Definition moveCard (sourceListId destListId : Id)
    (sourceIndex destIndex : Z) (prev : Board) : Board :=
  let newLists := (λ list,
        {| list_id := list_id list; list_title := list_title list;
           cards := cards list |}) <$> lists prev in
  match find_ref (λ l, list_id l = sourceListId) newLists,
        find_ref (λ l, list_id l = destListId) newLists with
  | Some sourceList, Some destList =>
    if bool_decide (sourceIndex < 0
                    ∨ sourceIndex >= Z.of_nat (length (cards_at sourceList newLists)))
    then prev
    else
      let '(removed, rest) :=
        splice (cards_at sourceList newLists) sourceIndex 1 [] in
      let newLists := set_cards sourceList rest newLists in
      match head removed with
      | None => prev
      | Some movedCard =>
        let clampedDest :=
          Z.min destIndex (Z.of_nat (length (cards_at destList newLists))) in
        let '(_, inserted) :=
          splice (cards_at destList newLists) clampedDest 0 [movedCard] in
        let newLists := set_cards destList inserted newLists in
        {| board_id := board_id prev; board_title := board_title prev;
           lists := newLists |}
      end
  | _, _ => prev
  end.

Definition addComment (uuid now : string) (listId cardId : Id)
    (text : string) (prev : Board) : Board :=
  let newComment := {| comment_id := generateId uuid "comment";
                       comment_text := text; comment_author := "User";
                       comment_createdAt := now |} in
  {| board_id := board_id prev; board_title := board_title prev;
     lists := (λ list,
        if bool_decide (list_id list = listId)
        then {| list_id := list_id list; list_title := list_title list;
                cards := (λ card,
                   if bool_decide (card_id card = cardId)
                   then {| card_id := card_id card;
                           card_title := card_title card;
                           comments := comments card ++ [newComment];
                           card_createdAt := card_createdAt card |}
                   else card) <$> cards list |}
        else list) <$> lists prev |}.

Definition getCard (listId cardId : Id) (board : Board) : option Card :=
  match find (λ l, list_id l = listId) (lists board) with
  | Some list => find (λ c, card_id c = cardId) (cards list)
  | None => None
  end.

(** * The drag session ([components/board/Board.tsx]) *)

Inductive DragType := TypeList | TypeCard.

#[global] Instance DragType_eq_dec : EqDecision DragType.
Proof. solve_decision. Defined.

(** React state ([activeId], [activeType]) and refs ([lastOverId],
    [recentlyMovedToNewContainer]) of the Board component. *)
Record Session := mkSession {
  activeId : option Id;
  activeType : option DragType;
  lastOverId : option Id;
  recentlyMovedToNewContainer : bool
}.

(** The component's state as a handler sees it: handlers run one at a
    time, each on the board left by the previous one. *)
Record State := mkState {
  board : Board;
  session : Session
}.

Record ClientRect := mkRect {
  rect_top : Q;
  rect_left : Q;
  rect_width : Q;
  rect_height : Q
}.

(** [event.active]: id, [data.current?.type], [rect.current.translated]. *)
Record Active := mkActive {
  active_id : Id;
  active_type : option DragType;
  active_translated : option ClientRect
}.

Record Over := mkOver {
  over_id : Id;
  over_rect : ClientRect
}.

Record DragEvent := mkDragEvent {
  active : Active;
  over : option Over
}.

(** JavaScript truthiness of an optional id: [undefined], [null] and the
    empty string are falsy. *)
Definition truthy (o : option Id) : bool :=
  match o with
  | Some s => negb (bool_decide (s = EmptyString))
  | None => false
  end.

Definition hasCard (id : Id) (l : List) : Prop :=
  Exists (λ c, card_id c = id) (cards l).

#[global] Instance hasCard_dec id l : Decision (hasCard id l).
Proof. unfold hasCard. apply _. Defined.

Definition findContainer (board : Board) (id : Id) : option Id :=
  if bool_decide (Exists (λ l, list_id l = id) (lists board)) then Some id
  else list_id <$> find (hasCard id) (lists board).

Definition handleDragStart (event : DragEvent) (st : State) : State :=
  match active_type (active event) with
  | Some TypeList =>
      {| board := board st;
         session := {| activeId := Some (active_id (active event));
                       activeType := Some TypeList;
                       lastOverId := lastOverId (session st);
                       recentlyMovedToNewContainer :=
                         recentlyMovedToNewContainer (session st) |} |}
  | Some TypeCard =>
      {| board := board st;
         session := {| activeId := Some (active_id (active event));
                       activeType := Some TypeCard;
                       lastOverId := lastOverId (session st);
                       recentlyMovedToNewContainer :=
                         recentlyMovedToNewContainer (session st) |} |}
  | None => st
  end.

(** [active.rect.current.translated.top > over.rect.top + over.rect.height / 2],
    falsy without a translated rectangle. *)
Definition isBelowOverItem (a : Active) (ov : Over) : bool :=
  match active_translated a with
  | Some t =>
      negb (Qle_bool (rect_top t)
              (rect_top (over_rect ov) + rect_height (over_rect ov) / 2)%Q)
  | None => false
  end.

Definition handleDragOver (event : DragEvent) (st : State) : State :=
  match over event with
  | None => st
  | Some ov =>
    if negb (bool_decide (activeType (session st) = Some TypeCard)) then st
    else
      let b := board st in
      let listIds := list_id <$> lists b in
      let activeContainer := findContainer b (active_id (active event)) in
      let overContainer := findContainer b (over_id ov) in
      if negb (truthy activeContainer) || negb (truthy overContainer) then st
      else if bool_decide (activeContainer = overContainer) then st
      else
        match activeContainer, overContainer with
        | Some ac, Some oc =>
          match find (λ l, list_id l = ac) (lists b),
                find (λ l, list_id l = oc) (lists b) with
          | Some sourceList, Some destList =>
            let activeIndex :=
              findIndex (λ c, card_id c = active_id (active event))
                (cards sourceList) in
            if bool_decide (activeIndex = -1) then st
            else
              let overIndex :=
                findIndex (λ c, card_id c = over_id ov) (cards destList) in
              let newIndex :=
                if bool_decide (over_id ov ∈ listIds)
                then Z.of_nat (length (cards destList))
                else
                  let modifier :=
                    if isBelowOverItem (active event) ov then 1 else 0 in
                  if bool_decide (overIndex >= 0) then overIndex + modifier
                  else Z.of_nat (length (cards destList)) in
              {| board := moveCard ac oc activeIndex newIndex b;
                 session :=
                   {| activeId := activeId (session st);
                      activeType := activeType (session st);
                      lastOverId := lastOverId (session st);
                      recentlyMovedToNewContainer := true |} |}
          | _, _ => st
          end
        | _, _ => st
        end
  end.

(** The state after [handleDragEnd]: the board is whatever [moveList] or
    [moveCard] handed to [setBoard]. *)
Record RawState := mkRawState {
  raw_board : RawBoard;
  raw_session : Session
}.

Definition handleDragEnd (event : DragEvent) (st : State) : RawState :=
  let reset := {| activeId := None; activeType := None;
                  lastOverId := lastOverId (session st);
                  recentlyMovedToNewContainer := false |} in
  let b := board st in
  let unchanged := {| raw_board := to_raw b; raw_session := reset |} in
  match over event with
  | None => unchanged
  | Some ov =>
    match active_type (active event) with
    | Some TypeList =>
      if bool_decide (active_id (active event) ≠ over_id ov) then
        let fromIndex :=
          findIndex (λ l, list_id l = active_id (active event)) (lists b) in
        let toIndex :=
          findIndex (λ l, list_id l = over_id ov) (lists b) in
        if bool_decide (fromIndex ≠ -1 ∧ toIndex ≠ -1)
        then {| raw_board := moveList fromIndex toIndex b;
                raw_session := reset |}
        else unchanged
      else unchanged
    | Some TypeCard =>
      let activeContainer := findContainer b (active_id (active event)) in
      let overContainer := findContainer b (over_id ov) in
      if negb (truthy activeContainer) || negb (truthy overContainer)
      then unchanged
      else if bool_decide (activeContainer = overContainer) then
        match activeContainer with
        | Some ac =>
          match find (λ l, list_id l = ac) (lists b) with
          | Some list =>
            let activeIndex :=
              findIndex (λ c, card_id c = active_id (active event))
                (cards list) in
            let overIndex :=
              findIndex (λ c, card_id c = over_id ov) (cards list) in
            if bool_decide (activeIndex ≠ -1 ∧ overIndex ≠ -1
                            ∧ activeIndex ≠ overIndex)
            then {| raw_board := to_raw (moveCard ac ac activeIndex overIndex b);
                    raw_session := reset |}
            else unchanged
          | None => unchanged
          end
        | None => unchanged
        end
      else unchanged
    | None => unchanged
    end
  end.

Definition handleDragCancel (st : State) : State :=
  {| board := board st;
     session := {| activeId := None; activeType := None;
                   lastOverId := lastOverId (session st);
                   recentlyMovedToNewContainer := false |} |}.

(** * The collision resolver ([components/board/Board.tsx]) *)

Record DroppableContainer := mkDroppable {
  droppable_id : Id;
  droppable_rect : option ClientRect
}.

Record Collision := mkCollision {
  collision_id : Id;
  collision_value : option Q
}.

(** The arguments of a collision detection: the dragged rectangle, the
    droppable containers with their measured rectangles, the pointer. *)
Record CollisionArgs := mkArgs {
  collisionRect : ClientRect;
  droppableContainers : list DroppableContainer;
  pointerCoordinates : option (Q * Q)
}.

(** [{ ...args, droppableContainers: ds }] *)
Definition withContainers (args : CollisionArgs)
    (ds : list DroppableContainer) : CollisionArgs :=
  {| collisionRect := collisionRect args; droppableContainers := ds;
     pointerCoordinates := pointerCoordinates args |}.

(** [getFirstCollision(collisions, 'id')] *)
Definition getFirstCollision (collisions : list Collision) : option Id :=
  collision_id <$> head collisions.

Section resolver.
(** The three strategies of the drag-and-drop library. *)
Variables closestCenter pointerWithin rectIntersection
  : CollisionArgs → list Collision.

Definition collisionDetectionStrategy (args : CollisionArgs) (st : State)
    : list Collision * State :=
  let listIds := list_id <$> lists (board st) in
  if bool_decide (activeType (session st) = Some TypeList) then
    (closestCenter
       (withContainers args
          (filter (λ container, droppable_id container ∈ listIds)
             (droppableContainers args))),
     st)
  else
    let pointerCollisions := pointerWithin args in
    let collisions :=
      if bool_decide (0 < length pointerCollisions)%nat
      then pointerCollisions else rectIntersection args in
    match getFirstCollision collisions with
    | Some overId =>
      let overId :=
        if bool_decide (overId ∈ listIds) then
          match find (λ l, list_id l = overId) (lists (board st)) with
          | Some list =>
            if bool_decide (0 < length (cards list))%nat then
              let cardIds := card_id <$> cards list in
              let closestCard :=
                closestCenter
                  (withContainers args
                     (filter (λ container, droppable_id container ∈ cardIds)
                        (droppableContainers args))) in
              match closestCard with
              | first :: _ => collision_id first
              | [] => overId
              end
            else overId
          | None => overId
          end
        else overId in
      ([{| collision_id := overId; collision_value := None |}],
       {| board := board st;
          session := {| activeId := activeId (session st);
                        activeType := activeType (session st);
                        lastOverId := Some overId;
                        recentlyMovedToNewContainer :=
                          recentlyMovedToNewContainer (session st) |} |})
    | None =>
      let last :=
        if recentlyMovedToNewContainer (session st)
        then activeId (session st) else lastOverId (session st) in
      ((if truthy last
        then match last with
             | Some id => [{| collision_id := id; collision_value := None |}]
             | None => []
             end
        else []),
       {| board := board st;
          session := {| activeId := activeId (session st);
                        activeType := activeType (session st);
                        lastOverId := last;
                        recentlyMovedToNewContainer :=
                          recentlyMovedToNewContainer (session st) |} |})
    end.
End resolver.

(** * Vocabulary of the statements *)

(** Insertion of one element before position [k] (at the end when [k] is
    past it): the reading of "insert at [k]" used in the statements. *)
Definition insert_at {A} (k : nat) (x : A) (l : list A) : list A :=
  take k l ++ x :: drop k l.

(** The outcome of a successful [moveCard], over positions. *)
Definition moved_store (sp dp : nat) (i : nat) (destIndex : Z) (c : Card)
    (store : list List) : list List :=
  let store1 := set_cards sp (delete i (cards_at sp store)) store in
  let dc := cards_at dp store1 in
  let clampedDest := Z.min destIndex (Z.of_nat (length dc)) in
  set_cards dp (insert_at (actualStart (length dc) clampedDest) c dc) store1.

Definition allCards (b : Board) : list Card := lists b ≫= cards.

Definition cardCount (b : Board) : nat :=
  sum_list_with (λ l, length (cards l)) (lists b).

(** Two sequences of lists that agree, position by position, on the ids
    and on which list holds the card [x]. *)
Definition sameOwner (x : Id) (l l' : List) : Prop :=
  list_id l = list_id l' ∧ (hasCard x l ↔ hasCard x l').

Definition uniqueCardIds (b : Board) : Prop :=
  NoDup (card_id <$> allCards b).

#[global] Instance uniqueCardIds_dec b : Decision (uniqueCardIds b).
Proof. unfold uniqueCardIds. apply _. Defined.

(** A reference [closestCenter]: the measured containers ranked by the
    squared distance between their centre and the centre of the dragged
    rectangle, nearest first. *)
Definition centerOfRectangle (r : ClientRect) : Q * Q :=
  ((rect_left r + rect_width r / 2)%Q, (rect_top r + rect_height r / 2)%Q).

Definition distanceSquared (p q : Q * Q) : Q :=
  ((p.1 - q.1) * (p.1 - q.1) + (p.2 - q.2) * (p.2 - q.2))%Q.

Definition nearerThan (c1 c2 : Collision) : Prop :=
  Qle_bool (default 0%Q (collision_value c1))
           (default 0%Q (collision_value c2)) = true.

#[global] Instance nearerThan_dec c1 c2 : Decision (nearerThan c1 c2).
Proof. unfold nearerThan. apply _. Defined.

Definition closestCenterRanking (args : CollisionArgs) : list Collision :=
  let centerRect := centerOfRectangle (collisionRect args) in
  merge_sort nearerThan
    (omap (λ container,
             rect ← droppable_rect container;
             Some {| collision_id := droppable_id container;
                     collision_value :=
                       Some (distanceSquared (centerOfRectangle rect)
                               centerRect) |})
          (droppableContainers args)).

(** * Sample boards, sessions and events *)

Definition scenarioA (bid bt a ta b tb : string) (c1 c2 c3 : Card) : Board :=
  mkBoard bid bt [mkList a ta [c1; c2]; mkList b tb [c3]].

Definition scenarioA_after (bid bt a ta b tb : string) (c1 c2 c3 : Card)
    : Board :=
  mkBoard bid bt [mkList a ta [c2]; mkList b tb [c3; c1]].

Definition card1 : Card := mkCard "c1" "one" [] "2024-01-01".
Definition card2 : Card := mkCard "c2" "two" [] "2024-01-01".
Definition card3 : Card := mkCard "c3" "three" [] "2024-01-01".
Definition boardA : Board :=
  scenarioA "board-1" "Demo" "A" "List A" "B" "List B" card1 card2 card3.

Definition listL1 : List := mkList "L1" "Todo" [card1].
Definition listL2 : List := mkList "L2" "Doing" [].
Definition listL3 : List := mkList "L3" "Done" [].
Definition boardL : Board := mkBoard "board-1" "Demo" [listL1; listL2; listL3].

Definition hoverEvent (a o : Id) : DragEvent :=
  mkDragEvent (mkActive a (Some TypeCard) None)
    (Some (mkOver o (mkRect 0 0 0 0))).

Definition idle (b : Board) : State :=
  mkState b (mkSession None None None false).

Definition dragging (b : Board) (a : Id) : State :=
  handleDragStart (hoverEvent a a) (idle b).

Definition sampleArgs : CollisionArgs :=
  {| collisionRect := mkRect 0 0 10 10;
     droppableContainers :=
       [mkDroppable "c3" (Some (mkRect 0 0 10 10));
        mkDroppable "B" (Some (mkRect 0 40 10 10));
        mkDroppable "A" (Some (mkRect 0 20 10 10))];
     pointerCoordinates := None |}.

Definition draggingList (b : Board) (a : Id) : State :=
  handleDragStart (mkDragEvent (mkActive a (Some TypeList) None) None)
    (idle b).

(** * The drag overlay ([components/board/Board.tsx]) *)

(** The [for ... of] loop of [activeCard]: the first card of that id, lists
    taken in order. *)
Fixpoint findCardIn (id : Id) (ls : list List) : option Card :=
  match ls with
  | [] => None
  | list :: rest =>
    match find (λ c, card_id c = id) (cards list) with
    | Some card => Some card
    | None => findCardIn id rest
    end
  end.

Definition activeCard (st : State) : option Card :=
  if negb (bool_decide (activeType (session st) = Some TypeCard))
     || negb (truthy (activeId (session st)))
  then None
  else
    match activeId (session st) with
    | Some id => findCardIn id (lists (board st))
    | None => None
    end.

Definition activeList (st : State) : option List :=
  if negb (bool_decide (activeType (session st) = Some TypeList))
     || negb (truthy (activeId (session st)))
  then None
  else
    match activeId (session st) with
    | Some id => find (λ l, list_id l = id) (lists (board st))
    | None => None
    end.

(** * More vocabulary *)

(** The data model's invariant: list ids are unique on the board, and so
    are card ids. *)
Definition wellFormed (b : Board) : Prop :=
  NoDup (list_id <$> lists b) ∧ uniqueCardIds b.

#[global] Instance wellFormed_dec b : Decision (wellFormed b).
Proof. unfold wellFormed. apply _. Defined.

(** The shape shared by [updateCardTitle] and [addComment]: [g] applied to
    the cards of id [cardId] in the lists of id [listId]. *)
Definition onCard (listId cardId : Id) (g : Card → Card) (list : List)
    : List :=
  if bool_decide (list_id list = listId)
  then {| list_id := list_id list; list_title := list_title list;
          cards := (λ card, if bool_decide (card_id card = cardId)
                            then g card else card) <$> cards list |}
  else list.

Definition retitle (title : string) (card : Card) : Card :=
  {| card_id := card_id card; card_title := title;
     comments := comments card; card_createdAt := card_createdAt card |}.

Definition commented (c : Comment) (card : Card) : Card :=
  {| card_id := card_id card; card_title := card_title card;
     comments := comments card ++ [c]; card_createdAt := card_createdAt card |}.

(** * More sample values *)

Definition emptyListBoard : Board :=
  mkBoard "board-1" "Demo"
    [mkList "A" "List A" [card1; card2]; mkList "B" "List B" []].


Definition afterHover : State :=
  mkState boardA (mkSession (Some "c1") (Some TypeCard) (Some "c3") false).

Definition cardArgs : CollisionArgs :=
  {| collisionRect := mkRect 0 0 10 10;
     droppableContainers :=
       [mkDroppable "A" (Some (mkRect 0 0 10 100));
        mkDroppable "c1" (Some (mkRect 50 0 10 10));
        mkDroppable "c2" (Some (mkRect 10 0 10 10));
        mkDroppable "c3" (Some (mkRect 0 40 10 10))];
     pointerCoordinates := Some (5%Q, 5%Q) |}.

(** * Properties of the array primitives *)

Section array_facts.
Context {A : Type}.
Implicit Types (l : list A) (x : A).

Lemma actualStart_in_range (len : nat) (k : Z) :
  0 ≤ k ≤ Z.of_nat len → actualStart len k = Z.to_nat k.
Proof.
  intros Hk. unfold actualStart.
  rewrite bool_decide_eq_false_2 by lia. f_equal. lia.
Qed.

Lemma actualStart_le (len : nat) (k : Z) : (actualStart len k ≤ len)%nat.
Proof. unfold actualStart. case_bool_decide; lia. Qed.

Lemma splice_delete_in l (i : Z) x :
  0 ≤ i → l !! Z.to_nat i = Some x →
  splice l i 1 [] = ([x], delete (Z.to_nat i) l).
Proof.
  intros Hi Hx. unfold splice.
  assert (Z.to_nat i < length l)%nat as Hlt by (by eapply lookup_lt_Some).
  rewrite actualStart_in_range by lia.
  rewrite (drop_S _ _ _ Hx). simpl. rewrite take_0.
  by rewrite delete_take_drop, Nat.add_1_r.
Qed.

Lemma splice_insert l (k : Z) x :
  (splice l k 0 [x]).2 =
    take (actualStart (length l) k) l ++ x :: drop (actualStart (length l) k) l.
Proof. unfold splice. simpl. by rewrite Nat.add_0_r. Qed.

End array_facts.

Section insert_at_facts.
Context {A : Type}.
Implicit Types (l : list A) (x : A).

Lemma length_insert_at k x l : length (insert_at k x l) = S (length l).
Proof.
  unfold insert_at. rewrite length_app. simpl.
  rewrite length_take, length_drop. lia.
Qed.

Lemma insert_at_lookup k x l :
  (k ≤ length l)%nat → insert_at k x l !! k = Some x.
Proof.
  intros Hk. unfold insert_at.
  rewrite lookup_app_r by (rewrite length_take; lia).
  rewrite length_take, Nat.min_l by lia. by rewrite Nat.sub_diag.
Qed.

Lemma delete_insert_at k x l :
  (k ≤ length l)%nat → delete k (insert_at k x l) = l.
Proof.
  intros Hk. rewrite delete_take_drop. unfold insert_at.
  assert (k = length (take k l)) as Hlen by (rewrite length_take; lia).
  rewrite (take_app_length' (take k l) (x :: drop k l) k Hlen).
  rewrite (cons_middle x), app_assoc.
  rewrite (drop_app_length' (take k l ++ [x]) (drop k l) (S k))
    by (rewrite length_app; simpl; lia).
  apply take_drop.
Qed.

Lemma insert_at_perm k x l : insert_at k x l ≡ₚ x :: l.
Proof.
  unfold insert_at. rewrite <- Permutation_middle.
  by rewrite take_drop.
Qed.

Lemma insert_at_end k x l :
  (length l ≤ k)%nat → insert_at k x l = l ++ [x].
Proof.
  intros Hk. unfold insert_at. by rewrite take_ge, drop_ge by lia.
Qed.

Lemma splice_insert_at l (k : Z) x :
  (splice l k 0 [x]).2 = insert_at (actualStart (length l) k) x l.
Proof. apply splice_insert. Qed.
End insert_at_facts.

(** * Properties of the store *)

(** ** Moving a card *)

Lemma copy_lists (ls : list List) :
  (λ list, {| list_id := list_id list; list_title := list_title list;
              cards := cards list |}) <$> ls = ls.
Proof.
  induction ls as [|l ls IH]; [done|]. rewrite fmap_cons, IH. by destruct l.
Qed.

Lemma board_eta (b : Board) :
  {| board_id := board_id b; board_title := board_title b;
     lists := lists b |} = b.
Proof. by destruct b. Qed.

Lemma set_cards_insert ref cs store l :
  store !! ref = Some l → set_cards ref cs store = <[ref := with_cards cs l]> store.
Proof.
  intros Hl. apply list_eq. intros j. unfold set_cards.
  destruct (decide (ref = j)) as [->|Hne].
  - rewrite list_lookup_alter_eq, Hl. simpl.
    rewrite list_lookup_insert_eq; [done|]. by eapply lookup_lt_Some.
  - by rewrite list_lookup_alter_ne, list_lookup_insert_ne.
Qed.

Lemma cards_at_lookup ref store l :
  store !! ref = Some l → cards_at ref store = cards l.
Proof. intros Hl. unfold cards_at. by rewrite Hl. Qed.

Lemma find_ref_Some (P : List → Prop) `{!∀ x, Decision (P x)} store ref :
  find_ref P store = Some ref ↔ ∃ l, list_find P store = Some (ref, l).
Proof.
  unfold find_ref. destruct (list_find P store) as [[i l]|]; simpl.
  - split; [intros [= ->]; eauto | intros (? & [= -> _]); done].
  - split; [done | intros (? & ?); done].
Qed.

Lemma find_ref_None (P : List → Prop) `{!∀ x, Decision (P x)} store :
  find_ref P store = None ↔ list_find P store = None.
Proof. unfold find_ref. by destruct (list_find P store) as [[i l]|]. Qed.

Lemma moveCard_fail_source src dst si di prev :
  list_find (λ l, list_id l = src) (lists prev) = None →
  moveCard src dst si di prev = prev.
Proof.
  intros H. unfold moveCard. rewrite copy_lists.
  by rewrite (proj2 (find_ref_None _ _) H).
Qed.

Lemma moveCard_fail_dest src dst si di prev :
  list_find (λ l, list_id l = dst) (lists prev) = None →
  moveCard src dst si di prev = prev.
Proof.
  intros H. unfold moveCard. rewrite copy_lists.
  rewrite (proj2 (find_ref_None (λ l, list_id l = dst) _) H).
  by destruct (find_ref _ _).
Qed.

Lemma moveCard_fail_index src dst si di prev sp s :
  list_find (λ l, list_id l = src) (lists prev) = Some (sp, s) →
  ¬ (0 ≤ si < Z.of_nat (length (cards s))) →
  moveCard src dst si di prev = prev.
Proof.
  intros Hs Hi. unfold moveCard. rewrite copy_lists.
  assert (find_ref (λ l, list_id l = src) (lists prev) = Some sp) as ->
    by (apply find_ref_Some; eauto).
  destruct (find_ref (λ l, list_id l = dst) _); [|done].
  apply list_find_Some in Hs as (Hs & _).
  rewrite (cards_at_lookup _ _ _ Hs).
  rewrite bool_decide_eq_true_2; [done | lia].
Qed.

Lemma moveCard_moved src dst si di prev sp s dp c :
  list_find (λ l, list_id l = src) (lists prev) = Some (sp, s) →
  find_ref (λ l, list_id l = dst) (lists prev) = Some dp →
  0 ≤ si → cards s !! Z.to_nat si = Some c →
  moveCard src dst si di prev =
    {| board_id := board_id prev; board_title := board_title prev;
       lists := moved_store sp dp (Z.to_nat si) di c (lists prev) |}.
Proof.
  intros Hs Hd Hi Hc. unfold moveCard. rewrite copy_lists.
  assert (find_ref (λ l, list_id l = src) (lists prev) = Some sp) as ->
    by (apply find_ref_Some; eauto).
  rewrite Hd.
  apply list_find_Some in Hs as (Hs & _).
  rewrite (cards_at_lookup _ _ _ Hs).
  assert (Z.to_nat si < length (cards s))%nat by (by eapply lookup_lt_Some).
  rewrite bool_decide_eq_false_2 by lia.
  rewrite (splice_delete_in (cards s) si c Hi Hc). simpl.
  unfold moved_store. rewrite (cards_at_lookup _ _ _ Hs).
  unfold insert_at. by rewrite Nat.add_0_r.
Qed.

Lemma moved_store_insert sp dp i di c store s d :
  store !! sp = Some s → store !! dp = Some d →
  let rest := delete i (cards s) in
  let dc := if decide (sp = dp) then rest else cards d in
  moved_store sp dp i di c store =
    <[dp := with_cards
              (insert_at (actualStart (length dc)
                            (Z.min di (Z.of_nat (length dc)))) c dc) d]>
      (<[sp := with_cards rest s]> store).
Proof.
  intros Hs Hd rest dc. unfold moved_store.
  rewrite (cards_at_lookup _ _ _ Hs).
  rewrite (set_cards_insert _ _ _ _ Hs). fold rest.
  assert (sp < length store)%nat by (by eapply lookup_lt_Some).
  destruct (decide (sp = dp)) as [<-|Hne].
  - assert (d = s) as -> by congruence.
    assert (<[sp:=with_cards rest s]> store !! sp = Some (with_cards rest s))
      as Hs' by (by apply list_lookup_insert_eq).
    rewrite (cards_at_lookup _ _ _ Hs'). simpl.
    by rewrite (set_cards_insert _ _ _ _ Hs').
  - assert (<[sp:=with_cards rest s]> store !! dp = Some d) as Hd'
      by (by rewrite list_lookup_insert_ne).
    rewrite (cards_at_lookup _ _ _ Hd').
    by rewrite (set_cards_insert _ _ _ _ Hd').
Qed.

Lemma list_find_same_id (ls : list List) (a b : Id) sp s dp d :
  list_find (λ l, list_id l = a) ls = Some (sp, s) →
  list_find (λ l, list_id l = b) ls = Some (dp, d) →
  (sp = dp ↔ a = b).
Proof.
  intros Ha Hb. split.
  - intros <-. apply list_find_Some in Ha as (Ha & <- & _).
    apply list_find_Some in Hb as (Hb & <- & _). congruence.
  - intros <-. congruence.
Qed.

Lemma moveCard_relocates (prev : Board) (sourceListId destListId : Id)
    (sourceIndex destIndex : Z) sp s dp d c :
  list_find (λ l, list_id l = sourceListId) (lists prev) = Some (sp, s) →
  list_find (λ l, list_id l = destListId) (lists prev) = Some (dp, d) →
  0 ≤ sourceIndex →
  cards s !! Z.to_nat sourceIndex = Some c →
  let rest := delete (Z.to_nat sourceIndex) (cards s) in
  let dc := if decide (sourceListId = destListId) then rest else cards d in
  let k := Z.min destIndex (Z.of_nat (length dc)) in
  let dc' := (splice dc k 0 [c]).2 in
  moveCard sourceListId destListId sourceIndex destIndex prev =
    {| board_id := board_id prev; board_title := board_title prev;
       lists := <[dp := with_cards dc' d]>
                  (<[sp := with_cards rest s]> (lists prev)) |}.
Proof.
  intros Hs Hd Hi Hc rest dc k dc'.
  erewrite moveCard_moved; [|done| apply find_ref_Some; eauto |done|done].
  f_equal.
  pose proof (list_find_same_id _ _ _ _ _ _ _ Hs Hd) as Hiff.
  apply list_find_Some in Hs as (Hs & _).
  apply list_find_Some in Hd as (Hd & _).
  rewrite (moved_store_insert _ _ _ _ _ _ _ _ Hs Hd).
  unfold dc', k, dc, rest. rewrite splice_insert_at.
  destruct (decide (sp = dp)) as [e|n],
           (decide (sourceListId = destListId)) as [e'|n']; try done.
  - destruct n'. by apply Hiff.
  - destruct n. by apply Hiff.
Qed.

(** C1. [moveCard] returns the board unchanged when either list id is absent
    or [sourceIndex] is outside [0, sourceList.length); otherwise it removes
    the card at [sourceIndex] from the source list and inserts it into the
    destination list with [splice] at [min(destIndex, destList.length)],
    the length being read when the insertion happens. For a non-negative
    [destIndex] the card then sits at exactly that position. On
    [A=[c1,c2]], [B=[c3]], [moveCard(A,B,0,1)] yields [A=[c2]],
    [B=[c3,c1]]. *)
Theorem moveCard_spec (prev : Board) (sourceListId destListId : Id)
    (sourceIndex destIndex : Z) :
  (find (λ l, list_id l = sourceListId) (lists prev) = None
   ∨ find (λ l, list_id l = destListId) (lists prev) = None
   ∨ (∃ s, find (λ l, list_id l = sourceListId) (lists prev) = Some s
           ∧ (sourceIndex < 0 ∨ sourceIndex >= Z.of_nat (length (cards s)))) →
   moveCard sourceListId destListId sourceIndex destIndex prev = prev)
  ∧ (∀ sp s dp d c,
       list_find (λ l, list_id l = sourceListId) (lists prev) = Some (sp, s) →
       list_find (λ l, list_id l = destListId) (lists prev) = Some (dp, d) →
       0 ≤ sourceIndex →
       cards s !! Z.to_nat sourceIndex = Some c →
       let rest := delete (Z.to_nat sourceIndex) (cards s) in
       let dc := if decide (sourceListId = destListId) then rest else cards d in
       let k := Z.min destIndex (Z.of_nat (length dc)) in
       let dc' := (splice dc k 0 [c]).2 in
       moveCard sourceListId destListId sourceIndex destIndex prev =
         {| board_id := board_id prev; board_title := board_title prev;
            lists := <[dp := with_cards dc' d]>
                       (<[sp := with_cards rest s]> (lists prev)) |}
       ∧ (0 ≤ destIndex →
          dc' = insert_at (Z.to_nat k) c dc ∧ dc' !! Z.to_nat k = Some c))
  ∧ (∀ bid bt a ta b tb c1 c2 c3,
       a ≠ b →
       moveCard a b 0 1 (scenarioA bid bt a ta b tb c1 c2 c3) =
         scenarioA_after bid bt a ta b tb c1 c2 c3).
Proof.
  split; [|split].
  - unfold find. intros [H|[H|(s & H & Hi)]].
    + apply moveCard_fail_source.
      by destruct (list_find _ (lists prev)) as [[]|].
    + apply moveCard_fail_dest.
      by destruct (list_find (λ l, list_id l = destListId) (lists prev))
        as [[]|].
    + destruct (list_find _ (lists prev)) as [[sp s']|] eqn:E; [|done].
      simpl in H. injection H as ->.
      eapply moveCard_fail_index; [done | lia].
  - intros sp s dp d c Hs Hd Hi Hc rest dc k dc'. split.
    + by apply moveCard_relocates.
    + intros Hdi. unfold dc'. rewrite splice_insert_at.
      rewrite actualStart_in_range by lia.
      split; [done|]. apply insert_at_lookup. lia.
  - intros bid bt a ta b tb c1 c2 c3 Hab.
    unfold moveCard, scenarioA, scenarioA_after, find_ref. simpl.
    rewrite decide_True by done. simpl.
    rewrite decide_False by done. simpl.
    rewrite decide_True by done. simpl. done.
Qed.

Lemma moveCard_spec_witness :
  moveCard "Z" "B" 0 1 boardA = boardA
  ∧ moveCard "A" "B" 0 1 boardA =
      scenarioA_after "board-1" "Demo" "A" "List A" "B" "List B"
        card1 card2 card3
  ∧ lists (moveCard "A" "B" 1 0 boardA) =
      [mkList "A" "List A" [card1]; mkList "B" "List B" [card2; card3]]
  ∧ (splice [card3] (Z.min 0 1) 0 [card2]).2 !! 0%nat = Some card2.
Proof.
  split; [|split].
  - apply (proj1 (moveCard_spec boardA "Z" "B" 0 1)). left. reflexivity.
  - apply (proj2 (proj2 (moveCard_spec boardA "A" "B" 0 1))). discriminate.
  - destruct (proj1 (proj2 (moveCard_spec boardA "A" "B" 1 0))
                0%nat (mkList "A" "List A" [card1; card2])
                1%nat (mkList "B" "List B" [card3]) card2
                eq_refl eq_refl ltac:(lia) eq_refl) as [-> Hpos].
    split; [reflexivity|]. exact (proj2 (Hpos ltac:(lia))).
Defined.

(** C10. When source and destination are the same list, [destIndex] is
    clamped against the length after the removal (original length minus
    one): any [destIndex >= length - 1] puts the moved card last, and the
    other cards keep their relative order. *)
Theorem moveCard_same_list (prev : Board) (listId : Id)
    (sourceIndex destIndex : Z) (sp : nat) (s : List) (c : Card) :
  list_find (λ l, list_id l = listId) (lists prev) = Some (sp, s) →
  0 ≤ sourceIndex →
  cards s !! Z.to_nat sourceIndex = Some c →
  let n := length (cards s) in
  let rest := delete (Z.to_nat sourceIndex) (cards s) in
  ∃ cs',
    moveCard listId listId sourceIndex destIndex prev =
      {| board_id := board_id prev; board_title := board_title prev;
         lists := <[sp := with_cards cs' s]> (lists prev) |}
    ∧ length rest = (n - 1)%nat
    ∧ cs' = (splice rest (Z.min destIndex (Z.of_nat n - 1)) 0 [c]).2
    ∧ (Z.of_nat n - 1 ≤ destIndex →
       cs' = rest ++ [c] ∧ last cs' = Some c ∧ cs' !! (n - 1)%nat = Some c)
    ∧ (∃ k, cs' !! k = Some c ∧ delete k cs' = rest).
Proof.
  intros Hs Hi Hc n rest.
  assert (Z.to_nat sourceIndex < n)%nat as Hlt by (by eapply lookup_lt_Some).
  assert (length rest = (n - 1)%nat) as Hrest.
  { unfold rest. rewrite length_delete; [done|]. eauto. }
  pose proof (moveCard_relocates prev listId listId sourceIndex destIndex
                sp s sp s c Hs Hs Hi Hc) as Heq. cbv zeta in Heq.
  rewrite decide_True in Heq by done. fold rest in Heq.
  rewrite list_insert_insert_eq in Heq. rewrite Hrest in Heq.
  replace (Z.of_nat (n - 1)) with (Z.of_nat n - 1) in Heq by lia.
  eexists. split; [exact Heq|]. split; [done|]. split; [done|].
  rewrite splice_insert_at. split.
  - intros Hd. rewrite Z.min_r by lia.
    rewrite actualStart_in_range by lia.
    rewrite insert_at_end by lia.
    split; [done|]. split; [by rewrite last_snoc|].
    rewrite lookup_app_r by lia. by rewrite Hrest, Nat.sub_diag.
  - exists (actualStart (length rest) (Z.min destIndex (Z.of_nat n - 1))).
    pose proof (actualStart_le (length rest)
                  (Z.min destIndex (Z.of_nat n - 1))).
    split; [by apply insert_at_lookup | by apply delete_insert_at].
Qed.

Lemma moveCard_same_list_witness :
  ∃ cs',
    lists (moveCard "A" "A" 0 7 boardA) =
      [mkList "A" "List A" cs'; mkList "B" "List B" [card3]]
    ∧ cs' = [card2; card1].
Proof.
  destruct (moveCard_same_list boardA "A" 0 7 0%nat
              (mkList "A" "List A" [card1; card2]) card1
              eq_refl ltac:(lia) eq_refl) as (cs' & -> & _ & _ & Hlast & _).
  exists cs'. split; [reflexivity|].
  exact (proj1 (Hlast ltac:(simpl; lia))).
Defined.

(** ** Counting cards *)

Lemma cardCount_allCards b : cardCount b = length (allCards b).
Proof.
  unfold cardCount, allCards.
  induction (lists b) as [|l ls IH]; [done|].
  simpl. rewrite length_app. by rewrite IH.
Qed.

Lemma bind_cards_insert (ls : list List) i s s' :
  ls !! i = Some s →
  (<[i := s']> ls ≫= cards) ++ cards s ≡ₚ (ls ≫= cards) ++ cards s'.
Proof.
  intros Hs.
  assert (i < length ls)%nat as Hlt by (by eapply lookup_lt_Some).
  rewrite (insert_take_drop ls i s' Hlt).
  rewrite <- (take_drop_middle ls i s Hs) at 3.
  rewrite !bind_app, !bind_cons.
  generalize (take i ls ≫= cards), (drop (S i) ls ≫= cards).
  intros l1 l2. rewrite <- !(assoc_L (++)).
  apply Permutation_app_head.
  rewrite (Permutation_app_comm (cards s') (l2 ++ cards s)).
  rewrite (Permutation_app_comm l2 (cards s)).
  by rewrite <- (assoc_L (++)).
Qed.

Lemma ids_insert_with_cards (ls : list List) i x cs :
  ls !! i = Some x →
  list_id <$> <[i := with_cards cs x]> ls = list_id <$> ls.
Proof.
  intros Hx. rewrite list_fmap_insert. simpl.
  apply list_insert_id. by rewrite list_lookup_fmap, Hx.
Qed.

Lemma find_ref_ids (ls ls' : list List) (a : Id) :
  list_id <$> ls = list_id <$> ls' →
  find_ref (λ x, list_id x = a) ls = find_ref (λ x, list_id x = a) ls'.
Proof.
  intros Hids. unfold find_ref.
  pose proof (list_find_fmap list_id (λ i, i = a) ls) as H1.
  pose proof (list_find_fmap list_id (λ i, i = a) ls') as H2.
  rewrite Hids in H1. rewrite H1 in H2.
  destruct (list_find _ ls) as [[i x]|], (list_find _ ls') as [[j y]|];
    simpl in *; congruence.
Qed.

Lemma list_find_of_ref (ls : list List) (a : Id) i x :
  find_ref (λ x, list_id x = a) ls = Some i → ls !! i = Some x →
  list_find (λ x, list_id x = a) ls = Some (i, x).
Proof.
  intros Hr Hx. apply find_ref_Some in Hr as (y & Hy).
  pose proof Hy as Hy'. apply list_find_Some in Hy' as (Hy' & _).
  congruence.
Qed.

Lemma relocate_allCards (ls : list List) sp dp s d rest dc dc' c :
  ls !! sp = Some s → cards s ≡ₚ c :: rest →
  <[sp := with_cards rest s]> ls !! dp = Some (with_cards dc d) →
  dc' ≡ₚ c :: dc →
  <[dp := with_cards dc' d]> (<[sp := with_cards rest s]> ls) ≫= cards
    ≡ₚ ls ≫= cards.
Proof.
  intros Hs Hps Hd Hpd.
  set (st1 := <[sp:=with_cards rest s]> ls) in *.
  pose proof (bind_cards_insert st1 dp _ (with_cards dc' d) Hd) as P1.
  pose proof (bind_cards_insert ls sp _ (with_cards rest s) Hs) as P2.
  fold st1 in P2. simpl in P1, P2.
  assert ((<[dp:=with_cards dc' d]> st1 ≫= cards) ≡ₚ c :: (st1 ≫= cards))
    as Q1.
  { apply (Permutation_app_inv_r dc). etrans; [exact P1|].
    etrans; [apply Permutation_app_head, Hpd|].
    simpl. by rewrite Permutation_middle. }
  assert (c :: (st1 ≫= cards) ≡ₚ (ls ≫= cards)) as Q2.
  { apply (Permutation_app_inv_r rest). etrans; [|exact P2].
    etrans; [|apply Permutation_app_head; symmetry; exact Hps].
    simpl. by rewrite Permutation_middle. }
  by etrans.
Qed.

Lemma moveCard_cases (src dst : Id) (si di : Z) (prev : Board) :
  moveCard src dst si di prev = prev
  ∨ ∃ sp s dp d c,
      list_find (λ l, list_id l = src) (lists prev) = Some (sp, s)
      ∧ list_find (λ l, list_id l = dst) (lists prev) = Some (dp, d)
      ∧ 0 ≤ si
      ∧ cards s !! Z.to_nat si = Some c.
Proof.
  destruct (list_find (λ l, list_id l = src) (lists prev)) as [[sp s]|]
    eqn:Hs; [|left; by apply moveCard_fail_source].
  destruct (list_find (λ l, list_id l = dst) (lists prev)) as [[dp d]|]
    eqn:Hd; [|left; by apply moveCard_fail_dest].
  destruct (decide (0 ≤ si < Z.of_nat (length (cards s)))) as [Hi|Hi];
    [|left; by eapply moveCard_fail_index].
  destruct (lookup_lt_is_Some_2 (cards s) (Z.to_nat si)) as [c Hc]; [lia|].
  right. exists sp, s, dp, d, c.
  split; [done|]. split; [done|]. split; [lia|done].
Qed.

Lemma moveCard_allCards (src dst : Id) (si di : Z) (prev : Board) :
  allCards (moveCard src dst si di prev) ≡ₚ allCards prev.
Proof.
  destruct (moveCard_cases src dst si di prev)
    as [->|(sp & s & dp & d & c & Hs & Hd & Hi & Hc)]; [done|].
  rewrite (moveCard_relocates prev _ _ si di _ _ _ _ c Hs Hd Hi Hc).
  unfold allCards. cbn [lists].
  pose proof (list_find_same_id _ _ _ _ _ _ _ Hs Hd) as Hiff.
  apply list_find_Some in Hs as (Hs & _).
  apply list_find_Some in Hd as (Hd & _).
  assert (sp < length (lists prev))%nat by (by eapply lookup_lt_Some).
  set (dc := if decide (src = dst)
             then delete (Z.to_nat si) (cards s) else cards d).
  eapply (relocate_allCards (lists prev) sp dp s d _ dc _ c);
    [done | by apply delete_Permutation | |].
  - unfold dc. destruct (decide (src = dst)) as [e|n].
    + apply Hiff in e as <-. assert (d = s) as -> by congruence.
      by rewrite list_lookup_insert_eq.
    + rewrite list_lookup_insert_ne by (intros e; by apply n, Hiff).
      rewrite Hd. by destruct d.
  - rewrite splice_insert_at. apply insert_at_perm.
Qed.

Lemma moveCard_uniqueCardIds (src dst : Id) (si di : Z) (prev : Board) :
  uniqueCardIds prev → uniqueCardIds (moveCard src dst si di prev).
Proof. unfold uniqueCardIds. by rewrite moveCard_allCards. Qed.

(** C4. A [moveCard] call that succeeds relocates: the card count over the
    source and destination lists, and over the whole board, is unchanged,
    for equal and for different source and destination lists; no card is
    duplicated or lost. *)
Theorem moveCard_conserves (prev : Board) (sourceListId destListId : Id)
    (sourceIndex destIndex : Z) (sp dp : nat) (s d : List) :
  list_find (λ l, list_id l = sourceListId) (lists prev) = Some (sp, s) →
  list_find (λ l, list_id l = destListId) (lists prev) = Some (dp, d) →
  0 ≤ sourceIndex < Z.of_nat (length (cards s)) →
  let next := moveCard sourceListId destListId sourceIndex destIndex prev in
  ∃ s' d',
    list_find (λ l, list_id l = sourceListId) (lists next) = Some (sp, s')
    ∧ list_find (λ l, list_id l = destListId) (lists next) = Some (dp, d')
    ∧ (if decide (sourceListId = destListId)
       then length (cards s') = length (cards s)
       else (length (cards s') + length (cards d')
             = length (cards s) + length (cards d))%nat)
    ∧ cardCount next = cardCount prev
    ∧ allCards next ≡ₚ allCards prev.
Proof.
  intros Hs Hd Hi next.
  destruct (lookup_lt_is_Some_2 (cards s) (Z.to_nat sourceIndex)) as [c Hc];
    [lia|].
  pose proof (moveCard_relocates prev _ _ sourceIndex destIndex
                _ _ _ _ c Hs Hd (proj1 Hi) Hc) as Heq.
  cbv zeta in Heq. fold next in Heq.
  pose proof (list_find_same_id _ _ _ _ _ _ _ Hs Hd) as Hiff.
  pose proof Hs as Hs'. apply list_find_Some in Hs' as (Hsl & _).
  pose proof Hd as Hd'. apply list_find_Some in Hd' as (Hdl & _).
  assert (sp < length (lists prev))%nat by (by eapply lookup_lt_Some).
  assert (dp < length (lists prev))%nat by (by eapply lookup_lt_Some).
  set (rest := delete (Z.to_nat sourceIndex) (cards s)) in *.
  assert (S (length rest) = length (cards s)) as Hrest.
  { unfold rest. rewrite length_delete by eauto. lia. }
  assert (cards s ≡ₚ c :: rest) as Hperm.
  { unfold rest. by apply delete_Permutation. }
  set (st1 := <[sp:=with_cards rest s]> (lists prev)) in *.
  assert (list_id <$> st1 = list_id <$> lists prev) as Hids1
    by (by apply ids_insert_with_cards).
  set (dc := if decide (sourceListId = destListId) then rest else cards d) in *.
  assert (st1 !! dp = Some (with_cards dc d)) as Hdp1.
  { unfold st1, dc. destruct (decide (sourceListId = destListId)) as [e|n].
    - apply Hiff in e as <-. assert (d = s) as -> by congruence.
      by rewrite list_lookup_insert_eq.
    - rewrite list_lookup_insert_ne by (intros e; by apply n, Hiff).
      rewrite Hdl. by destruct d. }
  set (dc' := (splice dc (Z.min destIndex (Z.of_nat (length dc))) 0 [c]).2) in *.
  assert (dc' ≡ₚ c :: dc) as Hperm'.
  { unfold dc'. rewrite splice_insert_at. apply insert_at_perm. }
  assert (list_id <$> lists next = list_id <$> lists prev) as Hids.
  { rewrite Heq. simpl. rewrite <- Hids1.
    rewrite list_fmap_insert. simpl. apply list_insert_id.
    by rewrite list_lookup_fmap, Hdp1. }
  assert (allCards next ≡ₚ allCards prev) as Hall
    by apply moveCard_allCards.
  assert (lists next !! dp = Some (with_cards dc' d)) as Hdn.
  { rewrite Heq. simpl. apply list_lookup_insert_eq.
    unfold st1. by rewrite length_insert. }
  assert (∃ s', lists next !! sp = Some s' ∧
                cards s' = if decide (sourceListId = destListId)
                           then dc' else rest) as (s' & Hsn & Hs'c).
  { destruct (decide (sourceListId = destListId)) as [e|n].
    - apply Hiff in e as <-. eauto.
    - exists (with_cards rest s). split; [|done].
      rewrite Heq. simpl.
      rewrite list_lookup_insert_ne by (intros e; by apply n, Hiff).
      unfold st1. by apply list_lookup_insert_eq. }
  exists s', (with_cards dc' d). split; [|split; [|split; [|split]]].
  - apply list_find_of_ref; [|done].
    rewrite (find_ref_ids _ _ _ Hids). apply find_ref_Some; eauto.
  - apply list_find_of_ref; [|done].
    rewrite (find_ref_ids _ _ _ Hids). apply find_ref_Some; eauto.
  - apply Permutation_length in Hperm'. simpl in Hperm'. unfold dc in *.
    rewrite Hs'c. simpl.
    destruct (decide (sourceListId = destListId)); lia.
  - rewrite !cardCount_allCards. by apply Permutation_length.
  - done.
Qed.

Lemma moveCard_conserves_witness :
  cardCount (moveCard "A" "B" 0 1 boardA) = cardCount boardA
  ∧ cardCount (moveCard "A" "A" 0 1 boardA) = cardCount boardA.
Proof.
  split.
  - destruct (moveCard_conserves boardA "A" "B" 0 1 0%nat 1%nat
                (mkList "A" "List A" [card1; card2])
                (mkList "B" "List B" [card3])
                eq_refl eq_refl ltac:(simpl; lia))
      as (s' & d' & _ & _ & _ & H & _).
    exact H.
  - destruct (moveCard_conserves boardA "A" "A" 0 1 0%nat 0%nat
                (mkList "A" "List A" [card1; card2])
                (mkList "A" "List A" [card1; card2])
                eq_refl eq_refl ltac:(simpl; lia))
      as (s' & d' & _ & _ & _ & H & _).
    exact H.
Defined.

(** ** Deletions *)

Lemma filter_id {A} (P : A → Prop) `{!∀ x, Decision (P x)} (l : list A) :
  Forall P l → filter P l = l.
Proof.
  induction 1 as [|x l Hx _ IH]; [done|].
  by rewrite filter_cons_True, IH.
Qed.

Lemma fmap_id_on {A} (f : A → A) (l : list A) :
  Forall (λ x, f x = x) l → f <$> l = l.
Proof.
  induction 1 as [|x l Hx _ IH]; [done|].
  by rewrite fmap_cons, Hx, IH.
Qed.

(** C5. Deleting a list whose id is not on the board, or a card whose id is
    not in the named list, gives back a board equal to the input. *)
Theorem delete_absent_unchanged (prev : Board) :
  (∀ listId, listId ∉ list_id <$> lists prev → deleteList listId prev = prev)
  ∧ (∀ listId cardId,
       (∀ l, l ∈ lists prev → list_id l = listId →
             cardId ∉ card_id <$> cards l) →
       deleteCard listId cardId prev = prev).
Proof.
  split.
  - intros listId Habs. unfold deleteList.
    rewrite filter_id; [apply board_eta|].
    apply Forall_forall. intros l Hl <-. apply Habs.
    apply list_elem_of_fmap. eauto.
  - intros listId cardId Habs. unfold deleteCard.
    rewrite fmap_id_on; [apply board_eta|].
    apply Forall_forall. intros l Hl.
    case_bool_decide as Hid; [|done].
    rewrite filter_id; [by destruct l|].
    apply Forall_forall. intros c Hc <-.
    apply (Habs l Hl Hid). apply list_elem_of_fmap. eauto.
Qed.

Lemma delete_absent_unchanged_witness :
  deleteList "C" boardA = boardA
  ∧ deleteCard "A" "c3" boardA = boardA
  ∧ deleteCard "C" "c1" boardA = boardA.
Proof.
  split; [|split].
  - apply (proj1 (delete_absent_unchanged boardA)).
    apply (bool_decide_unpack _). vm_compute. exact I.
  - apply (proj2 (delete_absent_unchanged boardA)).
    apply (Forall_forall
             (λ l, list_id l = "A" → "c3" ∉ card_id <$> cards l)).
    apply (bool_decide_unpack _). vm_compute. exact I.
  - apply (proj2 (delete_absent_unchanged boardA)).
    apply (Forall_forall
             (λ l, list_id l = "C" → "c1" ∉ card_id <$> cards l)).
    apply (bool_decide_unpack _). vm_compute. exact I.
Defined.

(** ** Comments *)

(** C9. [addComment] with a card id that is not in the named list, or a list
    id that is not on the board, leaves the board unchanged. When both are
    present, the card's comment sequence gains exactly one comment at its
    end, carrying the generated id, the fixed author and the creation
    timestamp; every other card, and every list's id, title and length, is
    as before. *)
Theorem addComment_spec (uuid now : string) (listId cardId : Id)
    (text : string) (prev : Board) :
  let next := addComment uuid now listId cardId text prev in
  let newComment := {| comment_id := "comment-" +:+ uuid;
                       comment_text := text; comment_author := "User";
                       comment_createdAt := now |} in
  ((∀ l, l ∈ lists prev → list_id l = listId →
         cardId ∉ card_id <$> cards l) →
   next = prev)
  ∧ board_id next = board_id prev
  ∧ board_title next = board_title prev
  ∧ length (lists next) = length (lists prev)
  ∧ (∀ i l j c,
       lists prev !! i = Some l → cards l !! j = Some c →
       ∃ l' c',
         lists next !! i = Some l'
         ∧ list_id l' = list_id l ∧ list_title l' = list_title l
         ∧ length (cards l') = length (cards l)
         ∧ cards l' !! j = Some c'
         ∧ card_id c' = card_id c ∧ card_title c' = card_title c
         ∧ card_createdAt c' = card_createdAt c
         ∧ comments c' =
             if bool_decide (list_id l = listId ∧ card_id c = cardId)
             then comments c ++ [newComment]
             else comments c).
Proof.
  intros next newComment. unfold next, addComment. simpl.
  split; [|split; [done|split; [done|split]]].
  - intros Habs. rewrite fmap_id_on; [apply board_eta|].
    apply Forall_forall. intros l Hl.
    case_bool_decide as Hid; [|done].
    rewrite fmap_id_on; [by destruct l|].
    apply Forall_forall. intros c Hc.
    case_bool_decide as Hcid; [|done].
    destruct (Habs l Hl Hid). apply list_elem_of_fmap. eauto.
  - by rewrite length_fmap.
  - intros i l j c Hl Hc. rewrite list_lookup_fmap, Hl. simpl.
    destruct (bool_decide (list_id l = listId)) eqn:El.
    + apply bool_decide_eq_true in El.
      eexists _, _. split; [done|]. simpl.
      rewrite length_fmap, list_lookup_fmap, Hc. simpl.
      do 4 (split; [done|]).
      destruct (bool_decide (card_id c = cardId)) eqn:Ec.
      * apply bool_decide_eq_true in Ec.
        rewrite bool_decide_eq_true_2 by done. done.
      * apply bool_decide_eq_false in Ec.
        rewrite bool_decide_eq_false_2 by tauto. done.
    + apply bool_decide_eq_false in El.
      exists l, c. rewrite bool_decide_eq_false_2 by tauto. done.
Qed.

Lemma addComment_spec_witness :
  addComment "u1" "2024-01-02" "A" "c3" "hi" boardA = boardA
  ∧ addComment "u1" "2024-01-02" "C" "c1" "hi" boardA = boardA
  ∧ ∃ l' c',
      lists (addComment "u1" "2024-01-02" "A" "c1" "hi" boardA) !! 0%nat
        = Some l'
      ∧ cards l' !! 0%nat = Some c'
      ∧ comments c' = [mkComment "comment-u1" "hi" "User" "2024-01-02"].
Proof.
  split; [|split].
  - apply (proj1 (addComment_spec "u1" "2024-01-02" "A" "c3" "hi" boardA)).
    apply (Forall_forall
             (λ l, list_id l = "A" → "c3" ∉ card_id <$> cards l)).
    apply (bool_decide_unpack _). vm_compute. exact I.
  - apply (proj1 (addComment_spec "u1" "2024-01-02" "C" "c1" "hi" boardA)).
    apply (Forall_forall
             (λ l, list_id l = "C" → "c1" ∉ card_id <$> cards l)).
    apply (bool_decide_unpack _). vm_compute. exact I.
  - destruct (proj2 (proj2 (proj2 (proj2
        (addComment_spec "u1" "2024-01-02" "A" "c1" "hi" boardA))))
        0%nat (mkList "A" "List A" [card1; card2]) 0%nat card1
        eq_refl eq_refl)
      as (l' & c' & Hl & _ & _ & _ & Hc & _ & _ & _ & Hcs).
    exists l', c'. split; [exact Hl|]. split; [exact Hc|]. exact Hcs.
Defined.

(** ** Reordering lists *)

Lemma splice_past_end {A} (l : list A) (i : Z) :
  Z.of_nat (length l) ≤ i → splice l i 1 [] = ([], l).
Proof.
  intros Hi. unfold splice, actualStart.
  rewrite bool_decide_eq_false_2 by lia.
  rewrite Z.min_r by lia. rewrite Nat2Z.id.
  rewrite (drop_ge l (length l)) by lia.
  rewrite (drop_ge l (length l + 1)) by lia.
  rewrite (take_ge l (length l)) by lia.
  by rewrite app_nil_r.
Qed.

Lemma moveList_past_end (prev : Board) (fromIndex toIndex : Z) :
  Z.of_nat (length (lists prev)) ≤ fromIndex →
  raw_lists (moveList fromIndex toIndex prev) =
    insert_at (actualStart (length (lists prev)) toIndex) None
      (Some <$> lists prev).
Proof.
  intros Hi. unfold moveList. rewrite (splice_past_end _ _ Hi). simpl.
  unfold insert_at. by rewrite Nat.add_0_r, length_fmap.
Qed.

(** C2 (the code departs from it). With [fromIndex] past the end of the
    list sequence, [moveList] does not leave the board unchanged: nothing
    is removed, and an [undefined] cell is inserted at [toIndex], so the
    sequence grows by one. A negative [fromIndex] counts from the end and
    moves a list. *)
Theorem moveList_out_of_bounds_changes :
  moveList 3 0 boardL =
    {| raw_id := "board-1"; raw_title := "Demo";
       raw_lists := [None; Some listL1; Some listL2; Some listL3] |}
  ∧ moveList (-1) 0 boardL =
      {| raw_id := "board-1"; raw_title := "Demo";
         raw_lists := [Some listL3; Some listL1; Some listL2] |}
  ∧ (∀ (prev : Board) (k : nat) (toIndex : Z),
       let next :=
         moveList (Z.of_nat (length (lists prev) + k)) toIndex prev in
       length (raw_lists next) = S (length (lists prev))
       ∧ None ∈ raw_lists next
       ∧ next ≠ to_raw prev).
Proof.
  split; [reflexivity|]. split; [reflexivity|].
  intros prev k toIndex next.
  assert (raw_lists next =
            insert_at (actualStart (length (lists prev)) toIndex) None
              (Some <$> lists prev)) as Hnext
    by (apply moveList_past_end; lia).
  assert (length (raw_lists next) = S (length (lists prev))) as Hlen
    by (by rewrite Hnext, length_insert_at, length_fmap).
  split; [done|]. split.
  - rewrite Hnext. rewrite insert_at_perm. apply list_elem_of_here.
  - intros Heq. rewrite Heq in Hlen. simpl in Hlen.
    rewrite length_fmap in Hlen. lia.
Qed.

Lemma insert_at_clamp {A} (k : nat) (x : A) (l : list A) :
  insert_at k x l = insert_at (k `min` length l) x l.
Proof.
  destruct (decide (k ≤ length l)%nat).
  - by rewrite Nat.min_l.
  - rewrite Nat.min_r by lia. by rewrite !insert_at_end by lia.
Qed.

Lemma moveList_in_range (prev : Board) (fromIndex toIndex : Z)
    (moved : List) :
  0 ≤ fromIndex → lists prev !! Z.to_nat fromIndex = Some moved →
  0 ≤ toIndex →
  moveList fromIndex toIndex prev =
    to_raw {| board_id := board_id prev; board_title := board_title prev;
              lists := insert_at (Z.to_nat toIndex) moved
                         (delete (Z.to_nat fromIndex) (lists prev)) |}.
Proof.
  intros Hf Hm Ht. unfold moveList.
  rewrite (splice_delete_in _ _ _ Hf Hm). unfold to_raw. simpl. f_equal.
  rewrite Nat.add_0_r, length_fmap.
  rewrite insert_at_clamp. unfold insert_at.
  rewrite fmap_app, fmap_cons, fmap_take, fmap_drop.
  replace (actualStart (length (delete (Z.to_nat fromIndex) (lists prev)))
             toIndex)
    with (Z.to_nat toIndex
            `min` length (delete (Z.to_nat fromIndex) (lists prev)))%nat;
    [done|].
  unfold actualStart. rewrite bool_decide_eq_false_2 by lia. lia.
Qed.

(** C3. For a valid [fromIndex] and a non-negative [toIndex], [moveList]
    removes the list at [fromIndex] and reinserts it at [toIndex] in the
    shortened sequence. The sequence keeps its length and its multiset of
    list ids, and the moved list ends at index [min(toIndex, length-1)].
    [moveList(0,2)] on [[L1,L2,L3]] yields [[L2,L3,L1]]. *)
Theorem moveList_permutes (prev : Board) (fromIndex toIndex : Z)
    (moved : List) :
  (0 ≤ fromIndex →
   lists prev !! Z.to_nat fromIndex = Some moved →
   0 ≤ toIndex →
   let n := length (lists prev) in
   let shortened := delete (Z.to_nat fromIndex) (lists prev) in
   let newLists := insert_at (Z.to_nat toIndex) moved shortened in
   let final := Z.to_nat (Z.min toIndex (Z.of_nat n - 1)) in
   moveList fromIndex toIndex prev =
     to_raw {| board_id := board_id prev; board_title := board_title prev;
               lists := newLists |}
   ∧ length newLists = n
   ∧ newLists ≡ₚ lists prev
   ∧ list_id <$> newLists ≡ₚ list_id <$> lists prev
   ∧ newLists !! final = Some moved
   ∧ delete final newLists = shortened)
  ∧ (∀ bid bt L1 L2 L3,
       moveList 0 2 (mkBoard bid bt [L1; L2; L3]) =
         to_raw (mkBoard bid bt [L2; L3; L1])).
Proof.
  split; [|done].
  intros Hf Hm Ht n shortened newLists final.
  assert (Z.to_nat fromIndex < n)%nat as Hlt by (by eapply lookup_lt_Some).
  assert (length shortened = (n - 1)%nat) as Hshort.
  { unfold shortened. rewrite length_delete; [done|eauto]. }
  assert (lists prev ≡ₚ moved :: shortened) as Hperm
    by (by apply delete_Permutation).
  assert (newLists = insert_at final moved shortened) as Hclamp.
  { unfold newLists. rewrite insert_at_clamp. f_equal. unfold final. lia. }
  assert (final ≤ length shortened)%nat as Hfin by (unfold final; lia).
  split; [|split; [|split; [|split; [|split]]]].
  - by apply moveList_in_range.
  - unfold newLists. rewrite length_insert_at. lia.
  - unfold newLists. by rewrite insert_at_perm.
  - unfold newLists. by rewrite insert_at_perm, Hperm.
  - rewrite Hclamp. by apply insert_at_lookup.
  - rewrite Hclamp. by apply delete_insert_at.
Qed.

Lemma moveList_permutes_witness :
  moveList 0 2 boardL =
    to_raw (mkBoard "board-1" "Demo" [listL2; listL3; listL1])
  ∧ moveList 2 1 boardL =
      to_raw (mkBoard "board-1" "Demo" [listL1; listL3; listL2]).
Proof.
  split.
  - destruct (proj1 (moveList_permutes boardL 0 2 listL1)
                ltac:(lia) eq_refl ltac:(lia)) as [-> _].
    reflexivity.
  - destruct (proj1 (moveList_permutes boardL 2 1 listL3)
                ltac:(lia) eq_refl ltac:(lia)) as [-> _].
    reflexivity.
Defined.

(** * Properties of the drag session *)

(** ** Lookups *)

Lemma find_cons {A} (P : A → Prop) `{!∀ x, Decision (P x)} (x : A) l :
  find P (x :: l) = if decide (P x) then Some x else find P l.
Proof.
  unfold find. simpl. destruct (decide (P x)); [done|].
  by destruct (list_find P l) as [[]|].
Qed.

Lemma find_Some_list_find {A} (P : A → Prop) `{!∀ x, Decision (P x)} l x :
  find P l = Some x ↔ ∃ i, list_find P l = Some (i, x).
Proof.
  unfold find. destruct (list_find P l) as [[i y]|]; simpl.
  - split; [intros [= ->]; eauto | intros (? & [= _ ->]); done].
  - split; [done | intros (? & ?); done].
Qed.

Lemma findIndex_found {A} (P : A → Prop) `{!∀ x, Decision (P x)} l :
  findIndex P l ≠ -1 →
  ∃ i x, findIndex P l = Z.of_nat i ∧ list_find P l = Some (i, x).
Proof.
  unfold findIndex. destruct (list_find P l) as [[i x]|]; [eauto|done].
Qed.

Lemma findIndex_none {A} (P : A → Prop) `{!∀ x, Decision (P x)} l :
  list_find P l = None → findIndex P l = -1.
Proof. unfold findIndex. by intros ->. Qed.

Lemma hasCard_elem_of a l : hasCard a l ↔ a ∈ card_id <$> cards l.
Proof.
  unfold hasCard. rewrite Exists_exists, list_elem_of_fmap.
  split; intros (c & H1 & H2); exists c; by split.
Qed.

Lemma findContainer_sameOwner (b b' : Board) (x : Id) :
  Forall2 (sameOwner x) (lists b) (lists b') →
  findContainer b x = findContainer b' x.
Proof.
  unfold findContainer. generalize (lists b), (lists b').
  intros ls ls' HF.
  assert (Exists (λ l, list_id l = x) ls ↔ Exists (λ l, list_id l = x) ls')
    as Hex.
  { induction HF as [|l l' ls ls' [Hid _] _ IH]; [reflexivity|].
    rewrite !Exists_cons, IH, Hid. reflexivity. }
  rewrite (bool_decide_ext _ _ Hex). case_bool_decide as Hn; [done|].
  clear Hex Hn. induction HF as [|l l' ls ls' [Hid Hc] _ IH]; [done|].
  rewrite !find_cons.
  destruct (decide (hasCard x l)), (decide (hasCard x l')); simpl;
    [by rewrite Hid | tauto | tauto | done].
Qed.

(** ** Unique card ids *)

Lemma unique_owner (ls : list List) (a : Id) p q x y :
  NoDup (card_id <$> (ls ≫= cards)) →
  ls !! p = Some x → ls !! q = Some y →
  hasCard a x → hasCard a y → p = q.
Proof.
  revert p q. induction ls as [|l ls IH]; intros p q Hnd Hx Hy Hax Hay;
    [done|].
  rewrite bind_cons, fmap_app in Hnd.
  apply NoDup_app in Hnd as (_ & Hdisj & Hnd).
  assert (∀ z k, ls !! k = Some z → hasCard a z →
                 a ∈ card_id <$> (ls ≫= cards)) as Hin.
  { intros z k Hz Haz. apply hasCard_elem_of in Haz.
    apply list_elem_of_fmap in Haz as (c & -> & Hc).
    apply list_elem_of_fmap. exists c. split; [done|].
    apply list_elem_of_bind. exists z. split; [done|].
    by eapply list_elem_of_lookup_2. }
  destruct p as [|p], q as [|q]; simpl in *.
  - done.
  - injection Hx as <-. apply hasCard_elem_of in Hax.
    destruct (Hdisj a Hax). by eapply Hin.
  - injection Hy as <-. apply hasCard_elem_of in Hay.
    destruct (Hdisj a Hay). by eapply Hin.
  - f_equal. by eapply IH.
Qed.

Lemma unique_within (ls : list List) p x :
  NoDup (card_id <$> (ls ≫= cards)) →
  ls !! p = Some x → NoDup (card_id <$> cards x).
Proof.
  revert p. induction ls as [|l ls IH]; intros p Hnd Hx; [done|].
  rewrite bind_cons, fmap_app in Hnd.
  apply NoDup_app in Hnd as (Hl & _ & Hnd).
  destruct p as [|p]; simpl in *; [by injection Hx as <- | by eapply IH].
Qed.

Lemma unique_after_delete (cs : list Card) i c :
  NoDup (card_id <$> cs) → cs !! i = Some c →
  card_id c ∉ card_id <$> delete i cs.
Proof.
  intros Hnd Hc.
  pose proof (delete_Permutation cs i c Hc) as Hp.
  rewrite Hp in Hnd. rewrite fmap_cons in Hnd.
  by apply NoDup_cons in Hnd as [? _].
Qed.

(** ** A cross-container hover settles the card *)

Lemma relocate_sameOwner (ls : list List) sp dp s d rest dc' (x : Id)
    (c : Card) :
  ls !! sp = Some s → ls !! dp = Some d → sp ≠ dp →
  cards s ≡ₚ c :: rest → dc' ≡ₚ c :: cards d → x ≠ card_id c →
  Forall2 (sameOwner x) ls
    (<[dp := with_cards dc' d]> (<[sp := with_cards rest s]> ls)).
Proof.
  intros Hs Hd Hne Hps Hpd Hx.
  apply Forall2_same_length_lookup_2.
  { by rewrite !length_insert. }
  assert (sp < length ls)%nat by (by eapply lookup_lt_Some).
  assert (dp < length ls)%nat by (by eapply lookup_lt_Some).
  intros j l l' Hl Hl'.
  destruct (decide (j = dp)) as [->|Hjd].
  - rewrite list_lookup_insert_eq in Hl' by (by rewrite length_insert).
    injection Hl' as <-. assert (l = d) as -> by congruence.
    split; [done|]. rewrite !hasCard_elem_of. simpl.
    rewrite Hpd, fmap_cons, elem_of_cons. tauto.
  - rewrite list_lookup_insert_ne in Hl' by done.
    destruct (decide (j = sp)) as [->|Hjs].
    + rewrite list_lookup_insert_eq in Hl' by done.
      injection Hl' as <-. assert (l = s) as -> by congruence.
      split; [done|]. rewrite !hasCard_elem_of. simpl.
      rewrite Hps, fmap_cons, elem_of_cons. tauto.
    + rewrite list_lookup_insert_ne in Hl' by done.
      assert (l' = l) as -> by congruence. by split.
Qed.

Lemma hover_settles (b : Board) (a o ac oc : Id) (s d : List) (i : nat)
    (c : Card) (k : Z) :
  uniqueCardIds b →
  findContainer b a = Some ac → findContainer b o = Some oc → ac ≠ oc →
  find (λ l, list_id l = ac) (lists b) = Some s →
  find (λ l, list_id l = oc) (lists b) = Some d →
  list_find (λ c, card_id c = a) (cards s) = Some (i, c) →
  let b' := moveCard ac oc (Z.of_nat i) k b in
  findContainer b' o = Some oc
  ∧ (findContainer b' a = Some oc
     ∨ (findContainer b' a = Some ac
        ∧ ∃ s', find (λ l, list_id l = ac) (lists b') = Some s'
                ∧ findIndex (λ c, card_id c = a) (cards s') = -1)).
Proof.
  intros Hnd Hac Hoc Hne Hfs Hfd Hfc b'.
  apply find_Some_list_find in Hfs as (sp & Hfs).
  apply find_Some_list_find in Hfd as (dp & Hfd).
  pose proof Hfc as Hfc'. apply list_find_Some in Hfc' as (Hc & Hca & _).
  pose proof (moveCard_relocates b ac oc (Z.of_nat i) k sp s dp d c
                Hfs Hfd ltac:(lia)) as Heq.
  rewrite Nat2Z.id in Heq. specialize (Heq Hc). cbv zeta in Heq.
  rewrite decide_False in Heq by done. fold b' in Heq.
  pose proof (list_find_same_id _ _ _ _ _ _ _ Hfs Hfd) as Hiff.
  assert (sp ≠ dp) as Hpos by (intros e; by apply Hne, Hiff).
  pose proof Hfs as Hs. apply list_find_Some in Hs as (Hs & Hsid & _).
  pose proof Hfd as Hd. apply list_find_Some in Hd as (Hd & Hdid & _).
  assert (sp < length (lists b))%nat by (by eapply lookup_lt_Some).
  assert (dp < length (lists b))%nat by (by eapply lookup_lt_Some).
  set (rest := delete i (cards s)) in *.
  set (dc' := (splice (cards d)
                 (Z.min k (Z.of_nat (length (cards d)))) 0 [c]).2) in *.
  assert (cards s ≡ₚ c :: rest) as Hps by (by apply delete_Permutation).
  assert (dc' ≡ₚ c :: cards d) as Hpd.
  { unfold dc'. rewrite splice_insert_at. apply insert_at_perm. }
  assert (list_id <$> lists b' = list_id <$> lists b) as Hids.
  { rewrite Heq. simpl.
    etrans; [apply ids_insert_with_cards; by rewrite list_lookup_insert_ne|].
    by apply ids_insert_with_cards. }
  assert (lists b' !! sp = Some (with_cards rest s)) as Hs'.
  { rewrite Heq. simpl. rewrite list_lookup_insert_ne by done.
    by apply list_lookup_insert_eq. }
  assert (lists b' !! dp = Some (with_cards dc' d)) as Hd'.
  { rewrite Heq. simpl. apply list_lookup_insert_eq.
    by rewrite length_insert. }
  assert (∀ x, x ≠ a → findContainer b' x = findContainer b x) as Hother.
  { intros x Hx. symmetry. apply findContainer_sameOwner.
    rewrite Heq. simpl. eapply relocate_sameOwner; eauto. congruence. }
  assert (∀ x, Exists (λ l, list_id l = x) (lists b')
               ↔ Exists (λ l, list_id l = x) (lists b)) as Hex.
  { intros x. rewrite !Exists_exists.
    split; intros (l & Hl & Hid).
    - assert (x ∈ list_id <$> lists b) as Hin
        by (rewrite <- Hids; apply list_elem_of_fmap; eauto).
      apply list_elem_of_fmap in Hin as (l0 & ? & ?). eauto.
    - assert (x ∈ list_id <$> lists b') as Hin
        by (rewrite Hids; apply list_elem_of_fmap; eauto).
      apply list_elem_of_fmap in Hin as (l0 & ? & ?). eauto. }
  assert (card_id c ∉ card_id <$> rest) as Hgone.
  { apply unique_after_delete; [|done]. by eapply unique_within. }
  assert (findContainer b' o = Some oc) as Ho'.
  { destruct (decide (o = a)) as [->|Hoa]; [|by rewrite Hother].
    congruence. }
  split; [done|].
  unfold findContainer in Hac |- *.
  rewrite (bool_decide_ext _ _ (Hex a)).
  case_bool_decide as Hlist.
  - (* the active id is also a list id *)
    right. split; [done|]. injection Hac as <-.
    exists (with_cards rest s). split.
    + apply find_Some_list_find. exists sp.
      apply list_find_of_ref; [|done].
      rewrite (find_ref_ids _ _ _ Hids). apply find_ref_Some; eauto.
    + apply findIndex_none. apply list_find_None, Forall_forall.
      intros c' Hc' Hid. apply Hgone. rewrite Hca, <- Hid.
      apply list_elem_of_fmap; eauto.
  - left.
    assert (list_find (hasCard a) (lists b') = Some (dp, with_cards dc' d))
      as Hfind.
    { apply list_find_Some. split; [done|]. split.
      - apply hasCard_elem_of. simpl. rewrite Hpd, fmap_cons, Hca.
        apply list_elem_of_here.
      - intros j y Hy Hlt Hay.
        destruct (decide (j = sp)) as [->|Hjs].
        + rewrite Hs' in Hy. injection Hy as <-.
          apply hasCard_elem_of in Hay. simpl in Hay. congruence.
        + assert (lists b !! j = Some y) as Hy0.
          { rewrite Heq in Hy. simpl in Hy.
            rewrite !list_lookup_insert_ne in Hy by lia. done. }
          apply Hjs. eapply (unique_owner (lists b) a); eauto.
          apply hasCard_elem_of. rewrite <- Hca.
          apply list_elem_of_fmap. exists c. split; [done|].
          by eapply list_elem_of_lookup_2. }
    unfold find. rewrite Hfind. simpl. by rewrite Hdid.
Qed.

Lemma handleDragOver_cases (event : DragEvent) (st : State) :
  handleDragOver event st = st
  ∨ ∃ ov ac oc s d i c k,
      over event = Some ov
      ∧ activeType (session st) = Some TypeCard
      ∧ findContainer (board st) (active_id (active event)) = Some ac
      ∧ findContainer (board st) (over_id ov) = Some oc
      ∧ ac ≠ oc
      ∧ find (λ l, list_id l = ac) (lists (board st)) = Some s
      ∧ find (λ l, list_id l = oc) (lists (board st)) = Some d
      ∧ list_find (λ c, card_id c = active_id (active event)) (cards s)
          = Some (i, c)
      ∧ handleDragOver event st =
          {| board := moveCard ac oc (Z.of_nat i) k (board st);
             session :=
               {| activeId := activeId (session st);
                  activeType := activeType (session st);
                  lastOverId := lastOverId (session st);
                  recentlyMovedToNewContainer := true |} |}.
Proof.
  unfold handleDragOver.
  destruct (over event) as [ov|]; [|by left].
  case_bool_decide as Hty; simpl; [|by left].
  destruct (findContainer (board st) (active_id (active event)))
    as [ac|] eqn:Hac; simpl; [|by left].
  destruct (findContainer (board st) (over_id ov)) as [oc|] eqn:Hoc; simpl;
    [|rewrite orb_true_r; by left].
  destruct (_ || _); [by left|].
  case_bool_decide as Hsame; [by left|].
  destruct (find (λ l, list_id l = ac) _) as [s|] eqn:Hs; [|by left].
  destruct (find (λ l, list_id l = oc) _) as [d|] eqn:Hd; [|by left].
  case_bool_decide as Hidx; [by left|].
  apply findIndex_found in Hidx as (i & c & Hi & Hfc).
  right. rewrite Hi. eexists ov, ac, oc, s, d, i, c, _.
  do 8 (split; [done || congruence|]). reflexivity.
Qed.

Lemma handleDragOver_uniqueCardIds (event : DragEvent) (st : State) :
  uniqueCardIds (board st) → uniqueCardIds (board (handleDragOver event st)).
Proof.
  intros Hnd.
  destruct (handleDragOver_cases event st)
    as [->|(ov & ac & oc & s & d & i & c & k & _ & _ & _ & _ & _ & _ & _
            & _ & ->)]; [done|].
  simpl. by apply moveCard_uniqueCardIds.
Qed.

Lemma DEFAULT_BOARD_uniqueCardIds t1 t2 t3 :
  uniqueCardIds (DEFAULT_BOARD t1 t2 t3).
Proof.
  unfold uniqueCardIds, allCards. simpl.
  apply (bool_decide_unpack _). vm_compute. exact I.
Qed.

(** C6. A hover whose active container equals its over container changes
    nothing. Hence, on a board whose card ids are unique, processing the
    same hover twice gives the state that processing it once gives: only
    the first, cross-container, hover relocates the card. Hovers keep card
    ids unique, so this holds all along a session. *)
Theorem hover_same_container_idempotent (event : DragEvent) (st : State) :
  (∀ ov c,
     over event = Some ov →
     findContainer (board st) (active_id (active event)) = Some c →
     findContainer (board st) (over_id ov) = Some c →
     handleDragOver event st = st)
  ∧ (uniqueCardIds (board st) →
     handleDragOver event (handleDragOver event st)
       = handleDragOver event st
     ∧ uniqueCardIds (board (handleDragOver event st))).
Proof.
  split.
  - intros ov c Hov Ha Ho. unfold handleDragOver. rewrite Hov, Ha, Ho.
    destruct (negb (bool_decide _)); [done|].
    destruct (negb (truthy (Some c)) || _); [done|].
    by rewrite bool_decide_eq_true_2.
  - intros Hnd. split; [|by apply handleDragOver_uniqueCardIds].
    destruct (handleDragOver_cases event st)
      as [Hst|(ov & ac & oc & s & d & i & c & k & Hov & Hty & Hac & Hoc
               & Hne & Hs & Hd & Hfc & ->)]; [by rewrite !Hst|].
    destruct (hover_settles (board st) _ _ ac oc s d i c k
                Hnd Hac Hoc Hne Hs Hd Hfc) as (Ho' & Ha').
    unfold handleDragOver at 1. rewrite Hov. simpl. rewrite Hty. simpl.
    rewrite Ho'.
    destruct Ha' as [Ha'|(Ha' & s' & Hs' & Hidx)]; rewrite Ha'.
    + destruct (_ || _); [done|]. by rewrite bool_decide_eq_true_2.
    + destruct (_ || _); [done|].
      rewrite bool_decide_eq_false_2 by congruence.
      rewrite Hs', (bool_decide_eq_true_2 _ Hidx).
      by destruct (find (λ l, list_id l = oc) (lists (moveCard _ _ _ _ _))).
Qed.

Lemma hover_same_container_idempotent_witness :
  handleDragOver (hoverEvent "c1" "c2") (dragging boardA "c1")
    = dragging boardA "c1"
  ∧ handleDragOver (hoverEvent "c1" "B")
      (handleDragOver (hoverEvent "c1" "B") (dragging boardA "c1"))
    = handleDragOver (hoverEvent "c1" "B") (dragging boardA "c1").
Proof.
  split.
  - apply (proj1 (hover_same_container_idempotent
                    (hoverEvent "c1" "c2") (dragging boardA "c1"))
             (mkOver "c2" (mkRect 0 0 0 0)) "A"); reflexivity.
  - refine (proj1 (proj2 (hover_same_container_idempotent
                             (hoverEvent "c1" "B") (dragging boardA "c1"))
                      _)).
    apply (bool_decide_unpack _). vm_compute. exact I.
Defined.

(** Without unique card ids the second hover finds the other card of that
    id in the source list and moves it too. *)
Example hover_twice_duplicate_ids :
  let twin := mkCard "c1" "twin" [] "2024-01-01" in
  let b := mkBoard "board-1" "Demo"
             [mkList "A" "List A" [card1; twin]; mkList "B" "List B" []] in
  let once := handleDragOver (hoverEvent "c1" "B") (dragging b "c1") in
  lists (board once) =
    [mkList "A" "List A" [twin]; mkList "B" "List B" [card1]]
  ∧ lists (board (handleDragOver (hoverEvent "c1" "B") once)) =
      [mkList "A" "List A" []; mkList "B" "List B" [card1; twin]].
Proof. split; reflexivity. Qed.

(** ** Ending a drag *)

(** [handleDragEnd] calls [moveList] only with indices that [findIndex]
    found, so the board it leaves has no empty cell, the same lists and
    the same cards. *)
Lemma handleDragEnd_well_formed (event : DragEvent) (st : State) :
  ∃ b', raw_board (handleDragEnd event st) = to_raw b'
        ∧ list_id <$> lists b' ≡ₚ list_id <$> lists (board st)
        ∧ allCards b' ≡ₚ allCards (board st).
Proof.
  unfold handleDragEnd.
  assert (∃ b', to_raw (board st) = to_raw b'
                ∧ list_id <$> lists b' ≡ₚ list_id <$> lists (board st)
                ∧ allCards b' ≡ₚ allCards (board st)) as Hsame
    by (by exists (board st)).
  destruct (over event) as [ov|]; [|done].
  destruct (active_type (active event)) as [[]|]; [| |done].
  - case_bool_decide as Hne; [|done].
    case_bool_decide as Hidx; [|done]. destruct Hidx as [Hf Ht].
    apply findIndex_found in Hf as (i & l & Hi & Hl).
    apply findIndex_found in Ht as (j & l' & Hj & _).
    apply list_find_Some in Hl as (Hl & _).
    rewrite Hi, Hj. simpl. eexists. split.
    + apply (moveList_in_range _ _ _ l); [lia | by rewrite Nat2Z.id | lia].
    + assert (insert_at (Z.to_nat (Z.of_nat j)) l
                (delete (Z.to_nat (Z.of_nat i)) (lists (board st)))
              ≡ₚ lists (board st)) as Hperm.
      { rewrite insert_at_perm, Nat2Z.id. symmetry.
        by apply delete_Permutation. }
      unfold allCards. simpl. by rewrite Hperm.
  - destruct (_ || _); [done|]. case_bool_decide; [|done].
    destruct (findContainer _ _) as [ac|]; [|done].
    destruct (find _ _) as [l|]; [|done].
    case_bool_decide; [|done]. simpl. eexists.
    split; [done|]. split; [|apply moveCard_allCards].
    destruct (moveCard_cases ac ac
                (findIndex (λ c, card_id c = active_id (active event)) (cards l))
                (findIndex (λ c, card_id c = over_id ov) (cards l))
                (board st))
      as [->|(sp & s & dp & d & c & Hs & Hd & Hi & Hc)]; [done|].
    rewrite (moveCard_relocates _ _ _ _ _ _ _ _ _ c Hs Hd Hi Hc). simpl.
    assert (dp = sp) as -> by congruence.
    rewrite list_insert_insert_eq.
    apply list_find_Some in Hd as (Hd & _).
    by rewrite ids_insert_with_cards.
Qed.

(** ** Cancelling *)

(** C7. Cancelling a drag leaves the board as it is and resets the active
    id, the active kind and the just-switched flag (the last over id is
    kept). A move committed by an earlier hover stays: the board after
    hover then cancel is the board after the hover, which can differ from
    the board the drag started on. *)
Theorem cancel_keeps_board (st : State) :
  board (handleDragCancel st) = board st
  ∧ session (handleDragCancel st) =
      {| activeId := None; activeType := None;
         lastOverId := lastOverId (session st);
         recentlyMovedToNewContainer := false |}
  ∧ (∀ event,
       board (handleDragCancel (handleDragOver event st))
         = board (handleDragOver event st))
  ∧ board (handleDragCancel
             (handleDragOver (hoverEvent "c1" "B") (dragging boardA "c1")))
      = scenarioA_after "board-1" "Demo" "A" "List A" "B" "List B"
          card1 card2 card3
  ∧ board (handleDragCancel
             (handleDragOver (hoverEvent "c1" "B") (dragging boardA "c1")))
      ≠ boardA.
Proof.
  split; [done|]. split; [done|]. split; [done|]. split; [reflexivity|].
  by vm_compute.
Qed.

(** * Properties of the collision resolver *)

Lemma closestCenterRanking_given (args : CollisionArgs) (c : Collision) :
  c ∈ closestCenterRanking args →
  collision_id c ∈ droppable_id <$> droppableContainers args.
Proof.
  unfold closestCenterRanking. rewrite merge_sort_Permutation.
  intros Hc. apply list_elem_of_omap in Hc as (d & Hd & Hc).
  destruct (droppable_rect d); simpl in Hc; [|done].
  injection Hc as <-. simpl. apply list_elem_of_fmap. eauto.
Qed.

Lemma list_drag_candidates
    (closestCenter pointerWithin rectIntersection
       : CollisionArgs → list Collision)
    (args : CollisionArgs) (st : State) (c : Collision) :
  (∀ args c, c ∈ closestCenter args →
             collision_id c ∈ droppable_id <$> droppableContainers args) →
  activeType (session st) = Some TypeList →
  c ∈ (collisionDetectionStrategy closestCenter pointerWithin
         rectIntersection args st).1 →
  collision_id c ∈ list_id <$> lists (board st).
Proof.
  intros Hcc Hty Hc. unfold collisionDetectionStrategy in Hc.
  rewrite bool_decide_eq_true_2 in Hc by done. simpl in Hc.
  apply Hcc in Hc. simpl in Hc.
  apply list_elem_of_fmap in Hc as (d & -> & Hd).
  by apply list_elem_of_filter in Hd as [Hd _].
Qed.

(** C8. While a list is dragged, the resolver hands [closestCenter] the
    list-level droppable containers only, so every candidate it returns
    carries the id of a list; with card ids distinct from list ids, no
    candidate carries a card id. The session is left as it was. *)
Theorem list_drag_targets_lists
    (closestCenter pointerWithin rectIntersection
       : CollisionArgs → list Collision)
    (args : CollisionArgs) (st : State) :
  (∀ args c, c ∈ closestCenter args →
             collision_id c ∈ droppable_id <$> droppableContainers args) →
  activeType (session st) = Some TypeList →
  let listIds := list_id <$> lists (board st) in
  let cardIds := card_id <$> allCards (board st) in
  let result :=
    collisionDetectionStrategy closestCenter pointerWithin rectIntersection
      args st in
  let candidates :=
    filter (λ d, droppable_id d ∈ listIds) (droppableContainers args) in
  result = (closestCenter (withContainers args candidates), st)
  ∧ Forall (λ d, droppable_id d ∈ listIds) candidates
  ∧ (∀ c, c ∈ result.1 → collision_id c ∈ listIds)
  ∧ (∀ id, getFirstCollision result.1 = Some id → id ∈ listIds)
  ∧ ((∀ id, id ∈ cardIds → id ∉ listIds) →
     ∀ c, c ∈ result.1 → collision_id c ∉ cardIds).
Proof.
  intros Hcc Hty listIds cardIds result candidates.
  assert (∀ c, c ∈ result.1 → collision_id c ∈ listIds) as Hlists.
  { intros c Hc. by eapply list_drag_candidates. }
  split; [|split; [|split; [|split]]].
  - unfold result, collisionDetectionStrategy.
    by rewrite bool_decide_eq_true_2.
  - apply Forall_forall. intros d Hd.
    by apply list_elem_of_filter in Hd as [Hd _].
  - done.
  - intros id Hid. unfold getFirstCollision in Hid.
    destruct (head result.1) as [c|] eqn:E; [|done].
    injection Hid as <-. apply Hlists.
    apply head_Some in E as (cs & ->). apply list_elem_of_here.
  - intros Hdisj c Hc Hcard. by apply (Hdisj _ Hcard), Hlists.
Qed.

Lemma list_drag_targets_lists_witness :
  let result :=
    collisionDetectionStrategy closestCenterRanking (λ _, []) (λ _, [])
      sampleArgs (draggingList boardA "A") in
  collision_id <$> result.1 = ["A"; "B"]
  ∧ ∀ c, c ∈ result.1 → collision_id c ∉ card_id <$> allCards boardA.
Proof.
  destruct (list_drag_targets_lists closestCenterRanking (λ _, []) (λ _, [])
              sampleArgs (draggingList boardA "A")
              closestCenterRanking_given eq_refl)
    as (Heq & _ & _ & _ & Hcards).
  split.
  - rewrite Heq. vm_compute. reflexivity.
  - apply Hcards.
    apply (Forall_forall
             (λ id, id ∉ list_id <$> lists (board (draggingList boardA "A")))).
    apply (bool_decide_unpack _). vm_compute. exact I.
Defined.

(** * Further properties of the id supplier *)

Lemma append_inj_l (p s1 s2 : string) : p +:+ s1 = p +:+ s2 → s1 = s2.
Proof.
  induction p as [|a p IH]; simpl; [done|].
  intros Heq. injection Heq as Heq. by apply IH.
Qed.

(** X1. Ids of one kind are as distinct as their uuids, and ids of
    different kinds ([list], [card], [comment]) never coincide. *)
Theorem generateId_distinct (u1 u2 : string) :
  (∀ prefix, generateId u1 prefix = generateId u2 prefix → u1 = u2)
  ∧ generateId u1 "list" ≠ generateId u2 "card"
  ∧ generateId u1 "list" ≠ generateId u2 "comment"
  ∧ generateId u1 "card" ≠ generateId u2 "comment".
Proof.
  split; [|by repeat split].
  intros prefix. unfold generateId. case_bool_decide; [done|].
  intros Heq. by apply append_inj_l, append_inj_l in Heq.
Qed.

Lemma generateId_distinct_witness : "u1" = "u1".
Proof.
  apply (proj1 (generateId_distinct "u1" "u1") "list"). reflexivity.
Defined.

(** * Further properties of the store *)

(** ** Looking up with [find] *)

Section find_facts.
Context {A : Type} (P : A → Prop) `{!∀ x, Decision (P x)}.
Implicit Types (l k : list A) (x : A).

Lemma find_None l : find P l = None ↔ Forall (λ x, ¬ P x) l.
Proof.
  unfold find. rewrite fmap_None. apply list_find_None.
Qed.

Lemma find_Some_elem l x : find P l = Some x → x ∈ l ∧ P x.
Proof.
  intros (i & Hf)%find_Some_list_find.
  apply list_find_Some in Hf as (Hl & HP & _).
  split; [by eapply list_elem_of_lookup_2 | done].
Qed.

Lemma find_app_l l k x : find P l = Some x → find P (l ++ k) = Some x.
Proof.
  intros (i & Hf)%find_Some_list_find. apply find_Some_list_find.
  exists i. by apply list_find_app_l.
Qed.

Lemma find_app_r l k : find P l = None → find P (l ++ k) = find P k.
Proof.
  induction l as [|x l IH]; [done|]. simpl. rewrite !find_cons.
  destruct (decide (P x)); [done | exact IH].
Qed.

Lemma find_fmap_preserving (f : A → A) l :
  (∀ x, P (f x) ↔ P x) → find P (f <$> l) = f <$> find P l.
Proof.
  intros Hf. induction l as [|x l IH]; [done|].
  rewrite fmap_cons, !find_cons.
  destruct (decide (P (f x))) as [Hy|Hn], (decide (P x)) as [Hy'|Hn'];
    simpl; [done | destruct Hn'; by apply Hf | destruct Hn; by apply Hf
           | exact IH].
Qed.

Lemma find_filter (Q : A → Prop) `{!∀ x, Decision (Q x)} l :
  (∀ x, P x → Q x) → find P (filter Q l) = find P l.
Proof.
  intros HPQ. induction l as [|x l IH]; [done|].
  rewrite filter_cons, (find_cons P x l).
  destruct (decide (Q x)) as [HQ|HQ].
  - rewrite find_cons. by destruct (decide (P x)).
  - destruct (decide (P x)) as [HP|]; [|done]. destruct HQ. by apply HPQ.
Qed.

Lemma find_filter_none (Q : A → Prop) `{!∀ x, Decision (Q x)} l :
  (∀ x, P x → ¬ Q x) → find P (filter Q l) = None.
Proof.
  intros HPQ. apply find_None, Forall_forall.
  intros x [HQ _]%list_elem_of_filter HP. by apply (HPQ x).
Qed.
End find_facts.

(** [getCard] on a board whose lists were mapped by an id-preserving [f]. *)
Lemma getCard_mapped (f : List → List) (a c : Id) (b b' : Board) :
  lists b' = f <$> lists b → (∀ l, list_id (f l) = list_id l) →
  getCard a c b' =
    match find (λ l, list_id l = a) (lists b) with
    | Some l => find (λ x, card_id x = c) (cards (f l))
    | None => None
    end.
Proof.
  intros Hl Hf. unfold getCard. rewrite Hl.
  rewrite (find_fmap_preserving (λ l, list_id l = a) f)
    by (intros l; by rewrite Hf).
  by destruct (find _ (lists b)).
Qed.

(** ** Adding and deleting lists *)

(** X2. A list added under a fresh id is found under that id, empty and
    with the given title; every other lookup of a list or a card answers
    as before, no card appears or disappears, and list ids stay unique. *)
Theorem addList_fresh (uuid title : string) (prev : Board) :
  let newId := generateId uuid "list" in
  let next := addList uuid title prev in
  newId ∉ list_id <$> lists prev →
  find (λ l, list_id l = newId) (lists next) = Some (mkList newId title [])
  ∧ (∀ a, a ≠ newId →
          find (λ l, list_id l = a) (lists next)
            = find (λ l, list_id l = a) (lists prev))
  ∧ (∀ a c, getCard a c next = getCard a c prev)
  ∧ allCards next = allCards prev
  ∧ (NoDup (list_id <$> lists prev) → NoDup (list_id <$> lists next)).
Proof.
  intros newId next Hfresh.
  assert (find (λ l, list_id l = newId) (lists prev) = None) as Hnone.
  { apply find_None, Forall_forall. intros l Hl Hid. apply Hfresh.
    apply list_elem_of_fmap. eauto. }
  assert (∀ a, a ≠ newId →
            find (λ l, list_id l = a) (lists next)
              = find (λ l, list_id l = a) (lists prev)) as Hother.
  { intros a Ha. unfold next, addList. cbn [lists].
    destruct (find (λ l, list_id l = a) (lists prev)) as [l|] eqn:E.
    - by apply find_app_l.
    - rewrite find_app_r by done. rewrite find_cons.
      rewrite decide_False; [done|]. simpl. fold newId. congruence. }
  assert (find (λ l, list_id l = newId) (lists next)
            = Some (mkList newId title [])) as Hnew.
  { unfold next, addList. cbn [lists]. rewrite find_app_r by done.
    rewrite find_cons. by rewrite decide_True. }
  split; [done|]. split; [done|]. split; [|split].
  - intros a c. unfold getCard. destruct (decide (a = newId)) as [->|Ha].
    + by rewrite Hnew, Hnone.
    + by rewrite Hother.
  - unfold allCards, next, addList. cbn [lists].
    by rewrite bind_app, bind_cons, app_nil_r.
  - intros Hnd. unfold next, addList. cbn [lists].
    rewrite fmap_app. apply NoDup_app. split; [done|]. split.
    + intros x Hx [->|[]%elem_of_nil]%elem_of_cons. by apply Hfresh.
    + apply NoDup_singleton.
Qed.

Lemma addList_fresh_witness :
  getCard "list-1" "card-2" (addList "u7" "Later" (DEFAULT_BOARD "t" "t" "t"))
    = getCard "list-1" "card-2" (DEFAULT_BOARD "t" "t" "t").
Proof.
  refine (proj1 (proj2 (proj2
    (addList_fresh "u7" "Later" (DEFAULT_BOARD "t" "t" "t") _))) _ _).
  apply (bool_decide_unpack _). vm_compute. exact I.
Defined.

(** X3. Deleting a list that was just added under a fresh id gives back the
    board as it was. *)
Theorem addList_deleteList (uuid title : string) (prev : Board) :
  generateId uuid "list" ∉ list_id <$> lists prev →
  deleteList (generateId uuid "list") (addList uuid title prev) = prev.
Proof.
  intros Hfresh. unfold deleteList, addList. cbn [lists board_id board_title].
  rewrite filter_app, filter_cons_False, filter_nil, app_nil_r
    by (simpl; intros H; by apply H).
  rewrite filter_id; [apply board_eta|].
  apply Forall_forall. intros l Hl Hid. apply Hfresh.
  apply list_elem_of_fmap. eauto.
Qed.

Lemma addList_deleteList_witness :
  deleteList "list-u7" (addList "u7" "Later" (DEFAULT_BOARD "t" "t" "t"))
    = DEFAULT_BOARD "t" "t" "t".
Proof.
  apply (addList_deleteList "u7" "Later" (DEFAULT_BOARD "t" "t" "t")).
  apply (bool_decide_unpack _). vm_compute. exact I.
Defined.

(** X4. After [deleteList] no list of that id is left and none of its cards
    can be looked up; the other lists are kept, in order, with their
    cards; deleting again changes nothing. *)
Theorem deleteList_removes (listId : Id) (prev : Board) :
  let next := deleteList listId prev in
  (listId ∉ list_id <$> lists next)
  ∧ (∀ c, getCard listId c next = None)
  ∧ (∀ a c, a ≠ listId → getCard a c next = getCard a c prev)
  ∧ (lists next `sublist_of` lists prev)
  ∧ (∀ l, l ∈ lists next ↔ l ∈ lists prev ∧ list_id l ≠ listId)
  ∧ (allCards next `sublist_of` allCards prev)
  ∧ deleteList listId next = next.
Proof.
  intros next. unfold next, deleteList. cbn [lists board_id board_title].
  assert (find (λ l, list_id l = listId)
            (filter (λ l, list_id l ≠ listId) (lists prev)) = None) as Hnone.
  { apply find_filter_none. intros l Hl Hne. by apply Hne. }
  split; [|split; [|split; [|split; [|split; [|split]]]]].
  - intros (l & Hid & [Hne _]%list_elem_of_filter)%list_elem_of_fmap.
    by apply Hne.
  - intros c. unfold getCard. cbn [lists]. by rewrite Hnone.
  - intros a c Ha. unfold getCard. cbn [lists].
    rewrite find_filter; [done|]. intros l ->. done.
  - apply sublist_filter.
  - intros l. rewrite list_elem_of_filter. tauto.
  - unfold allCards. cbn [lists].
    apply bind_sublist, sublist_filter.
  - f_equal. rewrite list_filter_filter. apply list_filter_iff. tauto.
Qed.

Lemma deleteList_removes_witness :
  getCard "list-2" "card-3" (deleteList "list-1" (DEFAULT_BOARD "t" "t" "t"))
    = getCard "list-2" "card-3" (DEFAULT_BOARD "t" "t" "t").
Proof.
  refine (proj1 (proj2 (proj2
    (deleteList_removes "list-1" (DEFAULT_BOARD "t" "t" "t")))) _ _ _).
  discriminate.
Defined.

(** ** Renaming *)

(** X5. [updateListTitle] changes titles only: the ids and the cards of the
    lists, and every card lookup, are as before; the list found under the
    id carries the new title; an absent id changes nothing; of two
    renamings of one list the later one stands. *)
Theorem updateListTitle_titles_only (listId : Id) (title : string)
    (prev : Board) :
  let next := updateListTitle listId title prev in
  list_id <$> lists next = list_id <$> lists prev
  ∧ cards <$> lists next = cards <$> lists prev
  ∧ (∀ a c, getCard a c next = getCard a c prev)
  ∧ (∀ l, find (λ l, list_id l = listId) (lists prev) = Some l →
          find (λ l, list_id l = listId) (lists next)
            = Some (mkList listId title (cards l)))
  ∧ ((listId ∉ list_id <$> lists prev) → next = prev)
  ∧ (∀ title', updateListTitle listId title' next
               = updateListTitle listId title' prev).
Proof.
  intros next. unfold next, updateListTitle.
  cbn [lists board_id board_title].
  set (f := λ list : List,
         if bool_decide (list_id list = listId)
         then {| list_id := list_id list; list_title := title;
                 cards := cards list |}
         else list).
  assert (∀ l, list_id (f l) = list_id l) as Hid
    by (intros l; unfold f; by case_bool_decide).
  assert (∀ l, cards (f l) = cards l) as Hcards
    by (intros l; unfold f; by case_bool_decide).
  split; [|split; [|split; [|split; [|split]]]].
  - rewrite <- list_fmap_compose. apply list_fmap_ext. intros i l _. apply Hid.
  - rewrite <- list_fmap_compose. apply list_fmap_ext. intros i l _.
    apply Hcards.
  - intros a c.
    rewrite (getCard_mapped f a c prev) by done.
    unfold getCard. destruct (find _ (lists prev)); [|done].
    by rewrite Hcards.
  - intros l Hl. rewrite (find_fmap_preserving (λ l, list_id l = listId) f)
      by (intros x; by rewrite Hid).
    rewrite Hl. simpl. apply find_Some_elem in Hl as [_ Hl].
    unfold f. rewrite bool_decide_eq_true_2 by done. by rewrite Hl.
  - intros Habs. rewrite fmap_id_on; [apply board_eta|].
    apply Forall_forall. intros l Hl. unfold f.
    rewrite bool_decide_eq_false_2; [done|]. intros Heq. apply Habs.
    apply list_elem_of_fmap. eauto.
  - intros title'. f_equal. rewrite <- list_fmap_compose.
    apply list_fmap_ext. intros i l _. simpl. unfold f.
    destruct (decide (list_id l = listId)) as [Hl|Hl].
    + rewrite !(bool_decide_eq_true_2 _ Hl). simpl.
      by rewrite ?(bool_decide_eq_true_2 _ Hl).
    + by rewrite !(bool_decide_eq_false_2 _ Hl).
Qed.

Lemma updateListTitle_titles_only_witness :
  find (λ l, list_id l = "list-3")
    (lists (updateListTitle "list-3" "Shipped" (DEFAULT_BOARD "t" "t" "t")))
    = Some (mkList "list-3" "Shipped" [])
  ∧ updateListTitle "list-9" "Shipped" (DEFAULT_BOARD "t" "t" "t")
    = DEFAULT_BOARD "t" "t" "t".
Proof.
  split.
  - exact (proj1 (proj2 (proj2 (proj2
      (updateListTitle_titles_only "list-3" "Shipped"
         (DEFAULT_BOARD "t" "t" "t")))))
      (mkList "list-3" "Done" []) eq_refl).
  - refine (proj1 (proj2 (proj2 (proj2 (proj2
      (updateListTitle_titles_only "list-9" "Shipped"
         (DEFAULT_BOARD "t" "t" "t")))))) _).
    apply (bool_decide_unpack _). vm_compute. exact I.
Defined.

(** ** Cards: adding, deleting, looking up *)

Lemma bind_cards_sublist (f : List → List) (ls : list List) :
  (∀ l, cards (f l) `sublist_of` cards l) →
  ((f <$> ls) ≫= cards) `sublist_of` (ls ≫= cards).
Proof.
  intros Hf. induction ls as [|l ls IH]; [done|].
  rewrite fmap_cons, !bind_cons. by apply sublist_app.
Qed.

(** X6. A card added under an id that is new to the named list is found by
    [getCard], with the given title and no comments; every card that could
    be looked up before still can, and lookups in other lists answer as
    before. With no list of that id the board is unchanged. *)
Theorem addCard_getCard (uuid now : string) (listId : Id) (title : string)
    (prev : Board) :
  let newId := generateId uuid "card" in
  let next := addCard uuid now listId title prev in
  (∀ l, find (λ l, list_id l = listId) (lists prev) = Some l →
        newId ∉ card_id <$> cards l →
        getCard listId newId next = Some (mkCard newId title [] now))
  ∧ (∀ a c x, getCard a c prev = Some x → getCard a c next = Some x)
  ∧ (∀ a c, a ≠ listId → getCard a c next = getCard a c prev)
  ∧ ((listId ∉ list_id <$> lists prev) → next = prev)
  ∧ list_id <$> lists next = list_id <$> lists prev.
Proof.
  intros newId next. unfold next, addCard.
  set (newCard := {| card_id := generateId uuid "card"; card_title := title;
                     comments := []; card_createdAt := now |}).
  set (f := λ list : List,
         if bool_decide (list_id list = listId)
         then {| list_id := list_id list; list_title := list_title list;
                 cards := cards list ++ [newCard] |}
         else list).
  assert (∀ l, list_id (f l) = list_id l) as Hid
    by (intros l; unfold f; by case_bool_decide).
  assert (∀ a c, getCard a c
            {| board_id := board_id prev; board_title := board_title prev;
               lists := f <$> lists prev |} =
            match find (λ l, list_id l = a) (lists prev) with
            | Some l => find (λ x, card_id x = c) (cards (f l))
            | None => None
            end) as Hget
    by (intros a c; by apply getCard_mapped).
  split; [|split; [|split; [|split]]].
  - intros l Hl Hfresh. rewrite Hget, Hl.
    apply find_Some_elem in Hl as [_ Hl]. unfold f.
    rewrite bool_decide_eq_true_2 by done. cbn [cards].
    rewrite find_app_r.
    + rewrite find_cons. by rewrite decide_True.
    + apply find_None, Forall_forall. intros c Hc Hcid. apply Hfresh.
      apply list_elem_of_fmap. eauto.
  - intros a c x Hx. rewrite Hget. unfold getCard in Hx.
    destruct (find (λ l, list_id l = a) (lists prev)) as [l|]; [|done].
    unfold f. case_bool_decide; [|done]. cbn [cards]. by apply find_app_l.
  - intros a c Ha. rewrite Hget. unfold getCard.
    destruct (find (λ l, list_id l = a) (lists prev)) as [l|] eqn:E; [|done].
    apply find_Some_elem in E as [_ E]. unfold f.
    rewrite bool_decide_eq_false_2; [done | congruence].
  - intros Habs. rewrite fmap_id_on; [apply board_eta|].
    apply Forall_forall. intros l Hl. unfold f.
    rewrite bool_decide_eq_false_2; [done|]. intros Heq. apply Habs.
    apply list_elem_of_fmap. eauto.
  - cbn [lists]. rewrite <- list_fmap_compose.
    apply list_fmap_ext. intros i l _. apply Hid.
Qed.

Lemma addCard_getCard_witness :
  getCard "list-3" "card-u9"
    (addCard "u9" "2024-02-02" "list-3" "Ship" (DEFAULT_BOARD "t" "t" "t"))
    = Some (mkCard "card-u9" "Ship" [] "2024-02-02")
  ∧ addCard "u9" "2024-02-02" "list-7" "Ship" (DEFAULT_BOARD "t" "t" "t")
    = DEFAULT_BOARD "t" "t" "t".
Proof.
  split.
  - refine (proj1 (addCard_getCard "u9" "2024-02-02" "list-3" "Ship"
                     (DEFAULT_BOARD "t" "t" "t"))
              (mkList "list-3" "Done" []) eq_refl _).
    apply (bool_decide_unpack _). vm_compute. exact I.
  - refine (proj1 (proj2 (proj2 (proj2
      (addCard_getCard "u9" "2024-02-02" "list-7" "Ship"
         (DEFAULT_BOARD "t" "t" "t"))))) _).
    apply (bool_decide_unpack _). vm_compute. exact I.
Defined.

(** X7. Deleting a card that was just added gives back the board as it
    was, provided no card of the named lists had the new id. *)
Theorem addCard_deleteCard (uuid now : string) (listId : Id)
    (title : string) (prev : Board) :
  (∀ l, l ∈ lists prev → list_id l = listId →
        generateId uuid "card" ∉ card_id <$> cards l) →
  deleteCard listId (generateId uuid "card")
    (addCard uuid now listId title prev) = prev.
Proof.
  intros Hfresh. unfold deleteCard, addCard.
  cbn [lists board_id board_title].
  rewrite <- list_fmap_compose.
  rewrite fmap_id_on; [apply board_eta|].
  apply Forall_forall. intros l Hl. simpl.
  destruct (decide (list_id l = listId)) as [Hid|Hid].
  - rewrite !(bool_decide_eq_true_2 _ Hid). simpl.
    rewrite ?(bool_decide_eq_true_2 _ Hid).
    rewrite filter_app, filter_cons_False, filter_nil, app_nil_r
      by (simpl; intros H; by apply H).
    rewrite filter_id; [by destruct l|].
    apply Forall_forall. intros c Hc Hcid. apply (Hfresh l Hl Hid).
    apply list_elem_of_fmap. eauto.
  - by rewrite !(bool_decide_eq_false_2 _ Hid).
Qed.

Lemma addCard_deleteCard_witness :
  deleteCard "list-1" "card-u9"
    (addCard "u9" "2024-02-02" "list-1" "Ship" (DEFAULT_BOARD "t" "t" "t"))
    = DEFAULT_BOARD "t" "t" "t".
Proof.
  apply (addCard_deleteCard "u9" "2024-02-02" "list-1" "Ship"
           (DEFAULT_BOARD "t" "t" "t")).
  apply (Forall_forall
           (λ l, list_id l = "list-1" → "card-u9" ∉ card_id <$> cards l)).
  apply (bool_decide_unpack _). vm_compute. exact I.
Defined.

(** X8. After [deleteCard] the card cannot be looked up in that list any
    more; every other lookup answers as before, the lists keep their ids,
    no card is added, and deleting again changes nothing. *)
Theorem deleteCard_removes (listId cardId : Id) (prev : Board) :
  let next := deleteCard listId cardId prev in
  getCard listId cardId next = None
  ∧ (∀ a c, a ≠ listId ∨ c ≠ cardId → getCard a c next = getCard a c prev)
  ∧ list_id <$> lists next = list_id <$> lists prev
  ∧ (allCards next `sublist_of` allCards prev)
  ∧ deleteCard listId cardId next = next.
Proof.
  intros next. unfold next, deleteCard.
  set (f := λ list : List,
         if bool_decide (list_id list = listId)
         then {| list_id := list_id list; list_title := list_title list;
                 cards := filter (λ c, card_id c ≠ cardId) (cards list) |}
         else list).
  assert (∀ l, list_id (f l) = list_id l) as Hid
    by (intros l; unfold f; by case_bool_decide).
  assert (∀ a c, getCard a c
            {| board_id := board_id prev; board_title := board_title prev;
               lists := f <$> lists prev |} =
            match find (λ l, list_id l = a) (lists prev) with
            | Some l => find (λ x, card_id x = c) (cards (f l))
            | None => None
            end) as Hget
    by (intros a c; by apply getCard_mapped).
  split; [|split; [|split; [|split]]].
  - rewrite Hget.
    destruct (find (λ l, list_id l = listId) (lists prev)) as [l|] eqn:E;
      [|done].
    apply find_Some_elem in E as [_ E]. unfold f.
    rewrite bool_decide_eq_true_2 by done. cbn [cards].
    apply find_filter_none. intros c Hc Hne. by apply Hne.
  - intros a c Hac. rewrite Hget. unfold getCard.
    destruct (find (λ l, list_id l = a) (lists prev)) as [l|] eqn:E; [|done].
    apply find_Some_elem in E as [_ E]. unfold f.
    case_bool_decide as Hl; [|done]. cbn [cards].
    apply find_filter. intros x Hx Hne.
    destruct Hac as [Ha|Hc]; [by apply Ha; rewrite <- E | by apply Hc; rewrite <- Hx].
  - cbn [lists]. rewrite <- list_fmap_compose.
    apply list_fmap_ext. intros i l _. apply Hid.
  - unfold allCards. cbn [lists]. apply bind_cards_sublist.
    intros l. unfold f. case_bool_decide; [apply sublist_filter | done].
  - cbn [lists board_id board_title]. f_equal.
    rewrite <- list_fmap_compose. apply list_fmap_ext. intros i l _. simpl.
    unfold f. destruct (decide (list_id l = listId)) as [Hl|Hl].
    + rewrite !(bool_decide_eq_true_2 _ Hl). simpl.
      rewrite ?(bool_decide_eq_true_2 _ Hl). f_equal.
      rewrite list_filter_filter. apply list_filter_iff. tauto.
    + by rewrite !(bool_decide_eq_false_2 _ Hl).
Qed.

Lemma deleteCard_removes_witness :
  getCard "list-1" "card-2" (deleteCard "list-1" "card-1" (DEFAULT_BOARD "t" "t" "t"))
    = getCard "list-1" "card-2" (DEFAULT_BOARD "t" "t" "t").
Proof.
  refine (proj1 (proj2
    (deleteCard_removes "list-1" "card-1" (DEFAULT_BOARD "t" "t" "t"))) _ _ _).
  right. discriminate.
Defined.

(** ** Cards: editing in place *)

Lemma updateCardTitle_onCard (listId cardId : Id) (title : string)
    (prev : Board) :
  updateCardTitle listId cardId title prev =
    {| board_id := board_id prev; board_title := board_title prev;
       lists := onCard listId cardId (retitle title) <$> lists prev |}.
Proof. reflexivity. Qed.

Lemma addComment_onCard (uuid now : string) (listId cardId : Id)
    (text : string) (prev : Board) :
  addComment uuid now listId cardId text prev =
    {| board_id := board_id prev; board_title := board_title prev;
       lists :=
         onCard listId cardId
           (commented {| comment_id := generateId uuid "comment";
                         comment_text := text; comment_author := "User";
                         comment_createdAt := now |}) <$> lists prev |}.
Proof. reflexivity. Qed.

Section onCard_facts.
Context (listId cardId : Id) (g : Card → Card).
Hypothesis g_id : ∀ c, card_id (g c) = card_id c.

Let onThis := λ card : Card,
  if bool_decide (card_id card = cardId) then g card else card.

Lemma onCard_list_id l : list_id (onCard listId cardId g l) = list_id l.
Proof. unfold onCard. by case_bool_decide. Qed.

Lemma onThis_card_id c : card_id (onThis c) = card_id c.
Proof. unfold onThis. case_bool_decide; [apply g_id | done]. Qed.

Lemma getCard_onCard_hit (prev next : Board) (c : Card) :
  lists next = onCard listId cardId g <$> lists prev →
  getCard listId cardId prev = Some c →
  getCard listId cardId next = Some (g c).
Proof.
  intros Hnext Hc.
  rewrite (getCard_mapped _ _ _ prev next Hnext onCard_list_id).
  unfold getCard in Hc.
  destruct (find (λ l, list_id l = listId) (lists prev)) as [l|] eqn:E;
    [|done].
  apply find_Some_elem in E as [_ E]. unfold onCard.
  rewrite bool_decide_eq_true_2 by done. cbn [cards].
  rewrite (find_fmap_preserving (λ x, card_id x = cardId) onThis)
    by (intros x; by rewrite onThis_card_id).
  rewrite Hc. simpl. apply find_Some_elem in Hc as [_ Hc].
  unfold onThis. by rewrite bool_decide_eq_true_2.
Qed.

Lemma getCard_onCard_miss (prev next : Board) (a c : Id) :
  lists next = onCard listId cardId g <$> lists prev →
  a ≠ listId ∨ c ≠ cardId →
  getCard a c next = getCard a c prev.
Proof.
  intros Hnext Hac.
  rewrite (getCard_mapped _ _ _ prev next Hnext onCard_list_id).
  unfold getCard.
  destruct (find (λ l, list_id l = a) (lists prev)) as [l|] eqn:E; [|done].
  apply find_Some_elem in E as [_ E]. unfold onCard.
  case_bool_decide as Hl; [|done]. cbn [cards].
  rewrite (find_fmap_preserving (λ x, card_id x = c) onThis)
    by (intros x; by rewrite onThis_card_id).
  destruct (find (λ x, card_id x = c) (cards l)) as [x|] eqn:Ex; [|done].
  simpl. apply find_Some_elem in Ex as [_ Ex]. unfold onThis.
  rewrite bool_decide_eq_false_2; [done|].
  destruct Hac as [Ha|Hc]; congruence.
Qed.

Lemma onCard_card_ids (ls : list List) :
  card_id <$> ((onCard listId cardId g <$> ls) ≫= cards)
    = card_id <$> (ls ≫= cards).
Proof.
  induction ls as [|l ls IH]; [done|].
  rewrite fmap_cons, !bind_cons, !fmap_app, IH. f_equal.
  unfold onCard. case_bool_decide; [|done]. cbn [cards].
  rewrite <- list_fmap_compose. apply list_fmap_ext.
  intros i c _. apply onThis_card_id.
Qed.

Lemma onCard_absent (ls : list List) :
  (∀ l, l ∈ ls → list_id l = listId → cardId ∉ card_id <$> cards l) →
  onCard listId cardId g <$> ls = ls.
Proof.
  intros Habs. apply fmap_id_on, Forall_forall. intros l Hl.
  unfold onCard. case_bool_decide as Hid; [|done].
  rewrite fmap_id_on; [by destruct l|].
  apply Forall_forall. intros c Hc.
  case_bool_decide as Hcid; [|done].
  destruct (Habs l Hl Hid). apply list_elem_of_fmap. eauto.
Qed.
End onCard_facts.

(** X9. [updateCardTitle] gives the card found by [getCard] the new title
    and leaves its id, comments and creation time; every other lookup
    answers as before, the cards keep their ids and order, and a card id
    that is not in the named list changes nothing. *)
Theorem updateCardTitle_getCard (listId cardId : Id) (title : string)
    (prev : Board) :
  let next := updateCardTitle listId cardId title prev in
  (∀ c, getCard listId cardId prev = Some c →
        getCard listId cardId next =
          Some (mkCard (card_id c) title (comments c) (card_createdAt c)))
  ∧ (∀ a c, a ≠ listId ∨ c ≠ cardId → getCard a c next = getCard a c prev)
  ∧ list_id <$> lists next = list_id <$> lists prev
  ∧ card_id <$> allCards next = card_id <$> allCards prev
  ∧ ((∀ l, l ∈ lists prev → list_id l = listId →
           cardId ∉ card_id <$> cards l) → next = prev).
Proof.
  intros next. unfold next. rewrite updateCardTitle_onCard.
  split; [|split; [|split; [|split]]].
  - intros c Hc.
    by apply (getCard_onCard_hit listId cardId (retitle title)) with prev.
  - intros a c Hac.
    by apply (getCard_onCard_miss listId cardId (retitle title)).
  - cbn [lists]. rewrite <- list_fmap_compose. apply list_fmap_ext.
    intros i l _. apply onCard_list_id.
  - unfold allCards. cbn [lists]. by apply onCard_card_ids.
  - intros Habs. rewrite onCard_absent by done. apply board_eta.
Qed.

Lemma updateCardTitle_getCard_witness :
  getCard "list-2" "card-3"
    (updateCardTitle "list-2" "card-3" "Set up" (DEFAULT_BOARD "t1" "t2" "t3"))
    = Some (mkCard "card-3" "Set up" [] "t3")
  ∧ getCard "list-1" "card-1"
      (updateCardTitle "list-2" "card-3" "Set up" (DEFAULT_BOARD "t1" "t2" "t3"))
    = getCard "list-1" "card-1" (DEFAULT_BOARD "t1" "t2" "t3")
  ∧ updateCardTitle "list-2" "card-1" "Set up" (DEFAULT_BOARD "t1" "t2" "t3")
    = DEFAULT_BOARD "t1" "t2" "t3".
Proof.
  split; [|split].
  - exact (proj1 (updateCardTitle_getCard "list-2" "card-3" "Set up"
                    (DEFAULT_BOARD "t1" "t2" "t3"))
             (mkCard "card-3" "Set up Next.js project" [] "t3") eq_refl).
  - refine (proj1 (proj2 (updateCardTitle_getCard "list-2" "card-3" "Set up"
                            (DEFAULT_BOARD "t1" "t2" "t3"))) _ _ _).
    left. discriminate.
  - refine (proj2 (proj2 (proj2 (proj2
      (updateCardTitle_getCard "list-2" "card-1" "Set up"
         (DEFAULT_BOARD "t1" "t2" "t3"))))) _).
    apply (Forall_forall
             (λ l, list_id l = "list-2" → "card-1" ∉ card_id <$> cards l)).
    apply (bool_decide_unpack _). vm_compute. exact I.
Defined.

(** X10. After [addComment] the card found by [getCard] carries its former
    comments followed by the new one, and the same id, title and creation
    time; every other lookup answers as before and the cards keep their
    ids and order. *)
Theorem addComment_getCard (uuid now : string) (listId cardId : Id)
    (text : string) (prev : Board) :
  let next := addComment uuid now listId cardId text prev in
  let newComment := {| comment_id := generateId uuid "comment";
                       comment_text := text; comment_author := "User";
                       comment_createdAt := now |} in
  (∀ c, getCard listId cardId prev = Some c →
        getCard listId cardId next =
          Some (mkCard (card_id c) (card_title c)
                  (comments c ++ [newComment]) (card_createdAt c)))
  ∧ (∀ a c, a ≠ listId ∨ c ≠ cardId → getCard a c next = getCard a c prev)
  ∧ list_id <$> lists next = list_id <$> lists prev
  ∧ card_id <$> allCards next = card_id <$> allCards prev.
Proof.
  intros next newComment. unfold next. rewrite addComment_onCard.
  fold newComment.
  split; [|split; [|split]].
  - intros c Hc.
    by apply (getCard_onCard_hit listId cardId (commented newComment))
      with prev.
  - intros a c Hac.
    by apply (getCard_onCard_miss listId cardId (commented newComment)).
  - cbn [lists]. rewrite <- list_fmap_compose. apply list_fmap_ext.
    intros i l _. apply onCard_list_id.
  - unfold allCards. cbn [lists]. by apply onCard_card_ids.
Qed.

Lemma addComment_getCard_witness :
  getCard "list-2" "card-3"
    (addComment "u5" "2024-03-03" "list-2" "card-3" "hi"
       (DEFAULT_BOARD "t1" "t2" "t3"))
    = Some (mkCard "card-3" "Set up Next.js project"
              [mkComment "comment-u5" "hi" "User" "2024-03-03"] "t3")
  ∧ getCard "list-1" "card-1"
      (addComment "u5" "2024-03-03" "list-2" "card-3" "hi"
         (DEFAULT_BOARD "t1" "t2" "t3"))
    = getCard "list-1" "card-1" (DEFAULT_BOARD "t1" "t2" "t3").
Proof.
  split.
  - exact (proj1 (addComment_getCard "u5" "2024-03-03" "list-2" "card-3" "hi"
                    (DEFAULT_BOARD "t1" "t2" "t3"))
             (mkCard "card-3" "Set up Next.js project" [] "t3") eq_refl).
  - refine (proj1 (proj2 (addComment_getCard "u5" "2024-03-03" "list-2"
                            "card-3" "hi" (DEFAULT_BOARD "t1" "t2" "t3")))
              _ _ _).
    left. discriminate.
Defined.

(** ** The data model's invariant *)

Lemma moveCard_list_ids (src dst : Id) (si di : Z) (prev : Board) :
  list_id <$> lists (moveCard src dst si di prev) = list_id <$> lists prev.
Proof.
  destruct (moveCard_cases src dst si di prev)
    as [->|(sp & s & dp & d & c & Hs & Hd & Hi & Hc)]; [done|].
  rewrite (moveCard_relocates prev _ _ si di _ _ _ _ c Hs Hd Hi Hc).
  cbn [lists].
  apply list_find_Some in Hs as (Hs & _).
  apply list_find_Some in Hd as (Hd & _).
  rewrite list_fmap_insert. cbn [list_id with_cards].
  rewrite list_insert_id.
  - by apply ids_insert_with_cards.
  - rewrite (ids_insert_with_cards _ _ _ _ Hs). by rewrite list_lookup_fmap, Hd.
Qed.

Lemma addCard_allCards (uuid now : string) (listId : Id) (title : string)
    (prev : Board) :
  NoDup (list_id <$> lists prev) →
  allCards (addCard uuid now listId title prev) ≡ₚ
    (if decide (listId ∈ list_id <$> lists prev)
     then [mkCard (generateId uuid "card") title [] now] else [])
    ++ allCards prev.
Proof.
  unfold allCards, addCard. cbn [lists].
  set (newCard := {| card_id := generateId uuid "card"; card_title := title;
                     comments := []; card_createdAt := now |}).
  set (f := λ list : List,
         if bool_decide (list_id list = listId)
         then {| list_id := list_id list; list_title := list_title list;
                 cards := cards list ++ [newCard] |}
         else list).
  induction (lists prev) as [|l ls IH]; [done|].
  rewrite !fmap_cons. intros [Hl Hnd]%NoDup_cons.
  rewrite !bind_cons. unfold f at 1.
  destruct (decide (list_id l = listId)) as [Hid|Hid].
  - rewrite (bool_decide_eq_true_2 _ Hid). cbn [cards].
    rewrite decide_True by (rewrite Hid; apply list_elem_of_here).
    rewrite fmap_id_on.
    + rewrite <- (assoc_L (++)). simpl.
      by rewrite <- Permutation_middle.
    + apply Forall_forall. intros l' Hl'. unfold f.
      rewrite bool_decide_eq_false_2; [done|]. intros Heq. apply Hl.
      rewrite Hid, <- Heq. apply list_elem_of_fmap. eauto.
  - rewrite (bool_decide_eq_false_2 _ Hid). rewrite (IH Hnd).
    destruct (decide (listId ∈ list_id <$> ls)) as [Hin|Hin].
    + rewrite decide_True by (by apply list_elem_of_further).
      simpl. by rewrite <- Permutation_middle.
    + rewrite decide_False; [done|].
      intros [?|?]%elem_of_cons; [by apply Hid | by apply Hin].
Qed.

(** X11. Unique list ids and unique card ids are kept by every operation of
    the store: by the renamings, the deletions, [moveCard] and
    [addComment] always, by [addList] and [addCard] when the generated id
    is new to the board, and by [moveList] when its indices are in range. *)
Theorem store_keeps_wellFormed (prev : Board) :
  wellFormed prev →
  (∀ title, wellFormed (updateBoardTitle title prev))
  ∧ (∀ uuid title,
       generateId uuid "list" ∉ list_id <$> lists prev →
       wellFormed (addList uuid title prev))
  ∧ (∀ listId, wellFormed (deleteList listId prev))
  ∧ (∀ listId title, wellFormed (updateListTitle listId title prev))
  ∧ (∀ uuid now listId title,
       generateId uuid "card" ∉ card_id <$> allCards prev →
       wellFormed (addCard uuid now listId title prev))
  ∧ (∀ listId cardId, wellFormed (deleteCard listId cardId prev))
  ∧ (∀ listId cardId title,
       wellFormed (updateCardTitle listId cardId title prev))
  ∧ (∀ src dst si di, wellFormed (moveCard src dst si di prev))
  ∧ (∀ uuid now listId cardId text,
       wellFormed (addComment uuid now listId cardId text prev))
  ∧ (∀ fromIndex toIndex moved,
       0 ≤ fromIndex → lists prev !! Z.to_nat fromIndex = Some moved →
       0 ≤ toIndex →
       ∃ next, moveList fromIndex toIndex prev = to_raw next
               ∧ wellFormed next).
Proof.
  intros [Hlists Hcards]. unfold wellFormed, uniqueCardIds in *.
  split; [done|].
  split.
  { intros uuid title Hfresh. unfold allCards, addList. cbn [lists]. split.
    - rewrite fmap_app. apply NoDup_app. split; [done|]. split.
      + intros x Hx [->|[]%elem_of_nil]%elem_of_cons. by apply Hfresh.
      + apply NoDup_singleton.
    - by rewrite bind_app, bind_cons, !app_nil_r. }
  split.
  { intros listId. unfold allCards, deleteList. cbn [lists]. split.
    - eapply sublist_NoDup; [exact Hlists|].
      apply fmap_sublist, sublist_filter.
    - eapply sublist_NoDup; [exact Hcards|].
      apply fmap_sublist, bind_sublist, sublist_filter. }
  split.
  { intros listId title. unfold allCards, updateListTitle. cbn [lists].
    assert (∀ ls : list List,
              ((λ list, if bool_decide (list_id list = listId)
                        then {| list_id := list_id list; list_title := title;
                                cards := cards list |}
                        else list) <$> ls) ≫= cards = ls ≫= cards) as Hsame.
    { induction ls as [|l ls IH]; [done|].
      rewrite fmap_cons, !bind_cons, IH. f_equal. by case_bool_decide. }
    split; [|by rewrite Hsame].
    rewrite <- list_fmap_compose.
    erewrite list_fmap_ext; [exact Hlists|].
    intros i l _. simpl. by case_bool_decide. }
  split.
  { intros uuid now listId title Hfresh. split.
    - unfold addCard. cbn [lists]. rewrite <- list_fmap_compose.
      erewrite list_fmap_ext; [exact Hlists|].
      intros i l _. simpl. by case_bool_decide.
    - rewrite (addCard_allCards _ _ _ _ _ Hlists).
      destruct (decide (listId ∈ list_id <$> lists prev)); [|done].
      simpl. by apply NoDup_cons. }
  split.
  { intros listId cardId. unfold allCards, deleteCard. cbn [lists]. split.
    - rewrite <- list_fmap_compose.
      erewrite list_fmap_ext; [exact Hlists|].
      intros i l _. simpl. by case_bool_decide.
    - eapply sublist_NoDup; [exact Hcards|].
      apply fmap_sublist, bind_cards_sublist.
      intros l. case_bool_decide; [apply sublist_filter | done]. }
  split.
  { intros listId cardId title. rewrite updateCardTitle_onCard.
    unfold allCards. cbn [lists]. split.
    - rewrite <- list_fmap_compose.
      erewrite list_fmap_ext; [exact Hlists|].
      intros i l _. apply onCard_list_id.
    - by rewrite onCard_card_ids. }
  split.
  { intros src dst si di. split.
    - by rewrite moveCard_list_ids.
    - by rewrite moveCard_allCards. }
  split.
  { intros uuid now listId cardId text. rewrite addComment_onCard.
    unfold allCards. cbn [lists]. split.
    - rewrite <- list_fmap_compose.
      erewrite list_fmap_ext; [exact Hlists|].
      intros i l _. apply onCard_list_id.
    - by rewrite onCard_card_ids. }
  intros fromIndex toIndex moved Hf Hm Ht.
  eexists. split; [by apply moveList_in_range|].
  assert (insert_at (Z.to_nat toIndex) moved
            (delete (Z.to_nat fromIndex) (lists prev)) ≡ₚ lists prev) as Hp.
  { rewrite insert_at_perm. symmetry. by apply delete_Permutation. }
  unfold allCards. cbn [lists]. by rewrite Hp.
Qed.

Lemma store_keeps_wellFormed_witness :
  wellFormed (addList "u1" "Later" (DEFAULT_BOARD "t" "t" "t"))
  ∧ wellFormed (addCard "u2" "now" "list-3" "Ship" (DEFAULT_BOARD "t" "t" "t"))
  ∧ ∃ next, moveList 0 2 (DEFAULT_BOARD "t" "t" "t") = to_raw next
            ∧ wellFormed next.
Proof.
  assert (wellFormed (DEFAULT_BOARD "t" "t" "t")) as Hwf
    by (apply (bool_decide_unpack _); vm_compute; exact I).
  pose proof (store_keeps_wellFormed (DEFAULT_BOARD "t" "t" "t") Hwf)
    as (_ & HaddList & _ & _ & HaddCard & _ & _ & _ & _ & HmoveList).
  split; [|split].
  - apply HaddList. apply (bool_decide_unpack _). vm_compute. exact I.
  - apply HaddCard. apply (bool_decide_unpack _). vm_compute. exact I.
  - exact (HmoveList 0 2 _ ltac:(lia) eq_refl ltac:(lia)).
Defined.

(** ** Moving there and back *)

Lemma insert_at_delete {A} (l : list A) (i : nat) (x : A) :
  l !! i = Some x → insert_at i x (delete i l) = l.
Proof.
  intros Hx. unfold insert_at.
  assert (i < length l)%nat by (by eapply lookup_lt_Some).
  rewrite delete_take_drop.
  rewrite take_app_le by (rewrite length_take; lia).
  rewrite take_take, Nat.min_id.
  rewrite drop_app_ge by (rewrite length_take; lia).
  rewrite length_take, Nat.min_l, Nat.sub_diag by lia. simpl.
  by apply take_drop_middle.
Qed.

Lemma with_cards_same (l : List) : with_cards (cards l) l = l.
Proof. by destruct l. Qed.

Lemma list_find_after_move (ls ls' : list List) (a : Id) i x x' :
  list_find (λ l, list_id l = a) ls = Some (i, x) →
  list_id <$> ls' = list_id <$> ls → ls' !! i = Some x' →
  list_find (λ l, list_id l = a) ls' = Some (i, x').
Proof.
  intros Hf Hids Hx'. apply list_find_of_ref; [|done].
  rewrite (find_ref_ids _ _ _ Hids). apply find_ref_Some. eauto.
Qed.

(** X12. Moving a card from one list to another and moving it back from
    where it landed restores the board; so does moving a card within a
    list and back. *)
Theorem moveCard_round_trip (prev : Board) (a b : Id) (i j : Z)
    (sp dp : nat) (s d : List) :
  list_find (λ l, list_id l = a) (lists prev) = Some (sp, s) →
  list_find (λ l, list_id l = b) (lists prev) = Some (dp, d) →
  0 ≤ i < Z.of_nat (length (cards s)) →
  0 ≤ j ≤ (if decide (a = b) then Z.of_nat (length (cards s)) - 1
           else Z.of_nat (length (cards d))) →
  moveCard b a j i (moveCard a b i j prev) = prev.
Proof.
  intros Hs Hd Hi Hj.
  destruct (lookup_lt_is_Some_2 (cards s) (Z.to_nat i)) as [c Hc]; [lia|].
  pose proof (moveCard_relocates prev a b i j sp s dp d c Hs Hd
                (proj1 Hi) Hc) as Heq. cbv zeta in Heq.
  pose proof (list_find_same_id _ _ _ _ _ _ _ Hs Hd) as Hiff.
  pose proof Hs as Hs0. apply list_find_Some in Hs0 as (Hsl & _).
  pose proof Hd as Hd0. apply list_find_Some in Hd0 as (Hdl & _).
  assert (sp < length (lists prev))%nat by (by eapply lookup_lt_Some).
  assert (dp < length (lists prev))%nat by (by eapply lookup_lt_Some).
  set (rest := delete (Z.to_nat i) (cards s)) in *.
  assert (length rest = (length (cards s) - 1)%nat) as Hrest
    by (unfold rest; rewrite length_delete; eauto).
  set (dc := if decide (a = b) then rest else cards d) in *.
  assert (0 ≤ j ≤ Z.of_nat (length dc)) as Hj'.
  { unfold dc. destruct (decide (a = b)); [rewrite Hrest|]; lia. }
  rewrite splice_insert_at, Z.min_l, actualStart_in_range in Heq by lia.
  set (dc' := insert_at (Z.to_nat j) c dc) in *.
  set (next := moveCard a b i j prev) in *.
  assert (list_id <$> lists next = list_id <$> lists prev) as Hids
    by apply moveCard_list_ids.
  assert (lists next !! dp = Some (with_cards dc' d)) as Hdn.
  { rewrite Heq. cbn [lists]. apply list_lookup_insert_eq.
    by rewrite length_insert. }
  assert (dc' !! Z.to_nat j = Some c) as Hcj
    by (apply insert_at_lookup; lia).
  assert (delete (Z.to_nat j) dc' = dc) as Hdel
    by (apply delete_insert_at; lia).
  destruct (decide (a = b)) as [<-|Hab].
  - assert (dp = sp) as -> by (symmetry; by apply Hiff).
    assert (d = s) as -> by congruence.
    pose proof (list_find_after_move _ _ _ _ _ _ Hs Hids Hdn) as Hfn.
    rewrite (moveCard_relocates next a a j i sp _ sp _ c Hfn Hfn
               (proj1 Hj) Hcj).
    cbv zeta. rewrite decide_True by done. cbn [cards with_cards].
    rewrite Hdel. unfold dc. rewrite splice_insert_at.
    rewrite Z.min_l, actualStart_in_range by lia.
    unfold rest. rewrite (insert_at_delete _ _ _ Hc).
    rewrite list_insert_insert_eq, Heq. cbn [lists board_id board_title].
    rewrite !list_insert_insert_eq.
    assert (∀ cs cs' l, with_cards cs (with_cards cs' l) = with_cards cs l)
      as Hww by done.
    rewrite Hww, with_cards_same, list_insert_id by done. apply board_eta.
  - assert (sp ≠ dp) as Hne by (intros e; by apply Hab, Hiff).
    assert (lists next !! sp = Some (with_cards rest s)) as Hsn.
    { rewrite Heq. cbn [lists]. rewrite list_lookup_insert_ne by done.
      by apply list_lookup_insert_eq. }
    pose proof (list_find_after_move _ _ _ _ _ _ Hd Hids Hdn) as Hfd.
    pose proof (list_find_after_move _ _ _ _ _ _ Hs Hids Hsn) as Hfs.
    rewrite (moveCard_relocates next b a j i dp _ sp _ c Hfd Hfs
               (proj1 Hj) Hcj).
    cbv zeta. rewrite decide_False by congruence. cbn [cards with_cards].
    rewrite Hdel. rewrite splice_insert_at.
    rewrite Z.min_l, actualStart_in_range by lia.
    unfold rest. rewrite (insert_at_delete _ _ _ Hc).
    rewrite Heq. cbn [lists board_id board_title].
    rewrite list_insert_insert_eq.
    rewrite list_insert_insert_ne by done.
    rewrite list_insert_insert_eq.
    assert (∀ cs cs' l, with_cards cs (with_cards cs' l) = with_cards cs l)
      as Hww by done.
    unfold dc. rewrite !Hww, !with_cards_same.
    rewrite (list_insert_id _ sp s) by done.
    rewrite list_insert_id by done. apply board_eta.
Qed.

Lemma moveCard_round_trip_witness :
  moveCard "B" "A" 1 0 (moveCard "A" "B" 0 1 boardA) = boardA
  ∧ moveCard "A" "A" 1 0 (moveCard "A" "A" 0 1 boardA) = boardA.
Proof.
  split.
  - apply (moveCard_round_trip boardA "A" "B" 0 1 0%nat 1%nat
             (mkList "A" "List A" [card1; card2])
             (mkList "B" "List B" [card3]));
      [reflexivity | reflexivity | simpl; lia | simpl; lia].
  - apply (moveCard_round_trip boardA "A" "A" 0 1 0%nat 0%nat
             (mkList "A" "List A" [card1; card2])
             (mkList "A" "List A" [card1; card2]));
      [reflexivity | reflexivity | simpl; lia | simpl; lia].
Defined.

Lemma moveCard_list_titles (src dst : Id) (si di : Z) (prev : Board) :
  list_title <$> lists (moveCard src dst si di prev)
    = list_title <$> lists prev.
Proof.
  destruct (moveCard_cases src dst si di prev)
    as [->|(sp & s & dp & d & c & Hs & Hd & Hi & Hc)]; [done|].
  rewrite (moveCard_relocates prev _ _ si di _ _ _ _ c Hs Hd Hi Hc).
  apply list_find_Some in Hs as (Hs & _).
  apply list_find_Some in Hd as (Hd & _). cbn [lists].
  rewrite !list_fmap_insert. cbn [list_title with_cards].
  rewrite (list_insert_id _ sp) by (by rewrite list_lookup_fmap, Hs).
  by rewrite list_insert_id by (by rewrite list_lookup_fmap, Hd).
Qed.

(** X13. Whatever its arguments, [moveCard] leaves the board's id and
    title, the ids, titles and order of the lists, and every list whose id
    is neither the source's nor the destination's; the cards of the board
    are the same cards, rearranged. *)
Theorem moveCard_frame (src dst : Id) (si di : Z) (prev : Board) :
  let next := moveCard src dst si di prev in
  board_id next = board_id prev
  ∧ board_title next = board_title prev
  ∧ list_id <$> lists next = list_id <$> lists prev
  ∧ list_title <$> lists next = list_title <$> lists prev
  ∧ allCards next ≡ₚ allCards prev
  ∧ (∀ k l, lists prev !! k = Some l → list_id l ≠ src → list_id l ≠ dst →
            lists next !! k = Some l).
Proof.
  intros next.
  split; [|split; [|split; [|split; [|split]]]];
    try apply moveCard_list_ids; try apply moveCard_list_titles;
    try apply moveCard_allCards.
  all: unfold next;
    destruct (moveCard_cases src dst si di prev)
      as [->|(sp & s & dp & d & c & Hs & Hd & Hi & Hc)]; [done|].
  all: rewrite (moveCard_relocates prev _ _ si di _ _ _ _ c Hs Hd Hi Hc);
    try done.
  apply list_find_Some in Hs as (Hs & Hsid & _).
  apply list_find_Some in Hd as (Hd & Hdid & _). cbn [lists].
  intros k l Hl Hns Hnd.
  rewrite !list_lookup_insert_ne; [done | congruence | congruence].
Qed.

Lemma moveCard_frame_witness :
  lists (moveCard "list-1" "list-2" 0 0 (DEFAULT_BOARD "t" "t" "t")) !! 2%nat
    = Some (mkList "list-3" "Done" []).
Proof.
  refine (proj2 (proj2 (proj2 (proj2 (proj2
    (moveCard_frame "list-1" "list-2" 0 0 (DEFAULT_BOARD "t" "t" "t"))))))
    2%nat _ eq_refl _ _); discriminate.
Defined.

(** X14. With both indices in range, moving a list from [i] to [j] and then
    from [j] to [i] restores the board, and moving it to its own index
    changes nothing. *)
Theorem moveList_round_trip (prev : Board) (i j : Z) :
  0 ≤ i < Z.of_nat (length (lists prev)) →
  0 ≤ j < Z.of_nat (length (lists prev)) →
  (∃ next, moveList i j prev = to_raw next
           ∧ moveList j i next = to_raw prev)
  ∧ moveList i i prev = to_raw prev.
Proof.
  intros Hi Hj.
  destruct (lookup_lt_is_Some_2 (lists prev) (Z.to_nat i)) as [x Hx]; [lia|].
  assert (length (delete (Z.to_nat i) (lists prev))
          = (length (lists prev) - 1)%nat) as Hlen
    by (rewrite length_delete; eauto).
  split.
  - eexists. split; [apply (moveList_in_range _ _ _ x); [lia|done|lia]|].
    cbn [board_id board_title].
    rewrite (moveList_in_range _ j i x); cbn [lists board_id board_title].
    + rewrite delete_insert_at by lia.
      rewrite insert_at_delete by done. by rewrite board_eta.
    + lia.
    + apply insert_at_lookup. lia.
    + lia.
  - rewrite (moveList_in_range _ i i x) by (done || lia).
    rewrite insert_at_delete by done. by rewrite board_eta.
Qed.

Lemma moveList_round_trip_witness :
  (∃ next, moveList 0 2 boardL = to_raw next
           ∧ moveList 2 0 next = to_raw boardL)
  ∧ moveList 0 0 boardL = to_raw boardL.
Proof.
  apply (moveList_round_trip boardL 0 2); simpl; lia.
Defined.

Lemma unique_list_id (ls : list List) (i j : nat) (x y : List) :
  NoDup (list_id <$> ls) → ls !! i = Some x → ls !! j = Some y →
  list_id x = list_id y → i = j.
Proof.
  intros Hnd Hx Hy Hid.
  apply (NoDup_lookup _ i j (list_id x) Hnd).
  - by rewrite list_lookup_fmap, Hx.
  - by rewrite list_lookup_fmap, Hy, Hid.
Qed.

Lemma unique_by_id (cs : list Card) (x y : Card) :
  NoDup (card_id <$> cs) → x ∈ cs → y ∈ cs → card_id x = card_id y → x = y.
Proof.
  intros Hnd (i & Hi)%list_elem_of_lookup (j & Hj)%list_elem_of_lookup Hid.
  assert (i = j) as ->; [|congruence].
  apply (NoDup_lookup _ i j (card_id x) Hnd).
  - by rewrite list_lookup_fmap, Hi.
  - by rewrite list_lookup_fmap, Hj, Hid.
Qed.

(** ** Looking cards up *)

(** X28. On a board with unique list ids and unique card ids, [getCard]
    finds exactly the cards of the board: it answers with a card if and
    only if that card has the id asked for and lies in a list of the id
    asked for. On any board an answer is such a card. *)
Theorem getCard_finds_exactly (listId cardId : Id) (b : Board) (x : Card) :
  (getCard listId cardId b = Some x →
   card_id x = cardId
   ∧ ∃ l, l ∈ lists b ∧ list_id l = listId ∧ x ∈ cards l)
  ∧ (wellFormed b →
     ∀ l, l ∈ lists b → list_id l = listId → x ∈ cards l →
          card_id x = cardId →
          getCard listId cardId b = Some x).
Proof.
  split.
  - unfold getCard.
    destruct (find (λ l, list_id l = listId) (lists b)) as [l|] eqn:El;
      [|done].
    intros [Hx Hid]%find_Some_elem. apply find_Some_elem in El as [Hl Hlid].
    eauto.
  - intros [Hlists Hcards] l (k & Hk)%list_elem_of_lookup Hlid Hx Hxid.
    unfold getCard.
    destruct (find (λ l, list_id l = listId) (lists b)) as [l'|] eqn:El.
    + apply find_Some_list_find in El as (k' & El).
      apply list_find_Some in El as (Hk' & Hl'id & _).
      assert (k' = k) as -> by (eapply unique_list_id; eauto; congruence).
      assert (l' = l) as -> by congruence.
      destruct (find (λ c, card_id c = cardId) (cards l)) as [y|] eqn:Ey.
      * apply find_Some_elem in Ey as [Hy Hyid]. f_equal.
        apply (unique_by_id (cards l));
          [by eapply unique_within | done | done | congruence].
      * apply find_None in Ey.
        by destruct (proj1 (Forall_forall _ _) Ey x Hx).
    + apply find_None in El.
      destruct (proj1 (Forall_forall _ _) El l); [|done].
      by eapply list_elem_of_lookup_2.
Qed.

Lemma getCard_finds_exactly_witness :
  getCard "list-2" "card-3" (DEFAULT_BOARD "t1" "t2" "t3")
    = Some (mkCard "card-3" "Set up Next.js project" [] "t3").
Proof.
  refine (proj2 (getCard_finds_exactly "list-2" "card-3"
                   (DEFAULT_BOARD "t1" "t2" "t3")
                   (mkCard "card-3" "Set up Next.js project" [] "t3"))
            _ (mkList "list-2" "In Progress"
                 [mkCard "card-3" "Set up Next.js project" [] "t3"])
            _ eq_refl _ eq_refl);
    apply (bool_decide_unpack _); vm_compute; exact I.
Defined.

(** ** Where a moved card lands *)

(** X29. In a successful [moveCard] the card lands, in the destination as
    it is when the insertion happens, at [destIndex] when that is a
    position of it, at its end when [destIndex] is larger, and, for a
    negative [destIndex], that many places before the end (at the front
    when there are fewer). The other cards of the destination keep their
    order. *)
Theorem moveCard_landing (prev : Board) (src dst : Id) (si di : Z)
    (sp dp : nat) (s d : List) (c : Card) :
  list_find (λ l, list_id l = src) (lists prev) = Some (sp, s) →
  list_find (λ l, list_id l = dst) (lists prev) = Some (dp, d) →
  0 ≤ si → cards s !! Z.to_nat si = Some c →
  let rest := delete (Z.to_nat si) (cards s) in
  let dc := if decide (src = dst) then rest else cards d in
  let len := Z.of_nat (length dc) in
  let landing :=
    Z.to_nat (if bool_decide (di < 0) then Z.max (len + di) 0
              else Z.min di len) in
  ∃ d', lists (moveCard src dst si di prev) !! dp = Some d'
        ∧ cards d' = insert_at landing c dc
        ∧ cards d' !! landing = Some c
        ∧ delete landing (cards d') = dc.
Proof.
  intros Hs Hd Hi Hc rest dc len landing.
  rewrite (moveCard_relocates prev _ _ si di _ _ _ _ c Hs Hd Hi Hc).
  cbn [lists]. fold rest dc len.
  apply list_find_Some in Hs as (Hs & _).
  apply list_find_Some in Hd as (Hd & _).
  assert (sp < length (lists prev))%nat by (by eapply lookup_lt_Some).
  assert (dp < length (lists prev))%nat by (by eapply lookup_lt_Some).
  assert (landing ≤ length dc)%nat as Hle
    by (unfold landing, len; case_bool_decide; lia).
  assert ((splice dc (Z.min di len) 0 [c]).2 = insert_at landing c dc)
    as Hins.
  { rewrite splice_insert_at. f_equal. unfold actualStart, landing, len.
    repeat case_bool_decide; lia. }
  eexists. split.
  { apply list_lookup_insert_eq. by rewrite length_insert. }
  cbn [cards with_cards]. rewrite Hins.
  split; [done|]. split; [by apply insert_at_lookup|].
  by apply delete_insert_at.
Qed.

Lemma moveCard_landing_witness :
  ∃ d', lists (moveCard "A" "B" 0 (-1) boardA) !! 1%nat = Some d'
        ∧ cards d' = [card1; card3].
Proof.
  destruct (moveCard_landing boardA "A" "B" 0 (-1) 0%nat 1%nat
              (mkList "A" "List A" [card1; card2])
              (mkList "B" "List B" [card3]) card1
              eq_refl eq_refl ltac:(lia) eq_refl)
    as (d' & Hd' & Hcards & _).
  exists d'. split; [exact Hd' | exact Hcards].
Defined.

(** * Further properties of the drag session *)

(** ** The container locator *)

Lemma findContainer_list_id (b : Board) (x : Id) :
  x ∈ list_id <$> lists b → findContainer b x = Some x.
Proof.
  intros (l & -> & Hl)%list_elem_of_fmap. unfold findContainer.
  rewrite bool_decide_eq_true_2; [done|]. apply Exists_exists. eauto.
Qed.

Lemma findContainer_card (b : Board) (x : Id) :
  x ∉ list_id <$> lists b →
  findContainer b x = list_id <$> find (hasCard x) (lists b).
Proof.
  intros Hx. unfold findContainer.
  rewrite bool_decide_eq_false_2; [done|].
  intros (l & Hl & <-)%Exists_exists. apply Hx.
  apply list_elem_of_fmap. eauto.
Qed.

Lemma hasCard_allCards (b : Board) (x : Id) :
  x ∈ card_id <$> allCards b ↔ ∃ l, l ∈ lists b ∧ hasCard x l.
Proof.
  unfold allCards. rewrite list_elem_of_fmap. split.
  - intros (c & -> & (l & Hc & Hl)%list_elem_of_bind).
    exists l. split; [done|]. apply hasCard_elem_of.
    apply list_elem_of_fmap. eauto.
  - intros (l & Hl & (c & -> & Hc)%hasCard_elem_of%list_elem_of_fmap).
    exists c. split; [done|]. apply list_elem_of_bind. eauto.
Qed.

Lemma findContainer_card_owner (b : Board) (x c : Id) :
  x ∉ list_id <$> lists b → findContainer b x = Some c →
  ∃ k l, lists b !! k = Some l ∧ list_id l = c ∧ hasCard x l
         ∧ ∀ k' l', lists b !! k' = Some l' → (k' < k)%nat → ¬ hasCard x l'.
Proof.
  intros Hx Hc. rewrite findContainer_card in Hc by done.
  destruct (find (hasCard x) (lists b)) as [l|] eqn:E; [|done].
  injection Hc as <-.
  apply find_Some_list_find in E as (k & E).
  apply list_find_Some in E as (Hl & Hh & Hfirst). eauto 10.
Qed.

(** X15. [findContainer] answers with the id of a list of the board: the id
    asked for when it is a list's, else the id of the first list holding a
    card of that id. It answers nothing exactly when the id is neither a
    list's nor a card's. *)
Theorem findContainer_locates (b : Board) (x : Id) :
  (∀ c, findContainer b x = Some c → c ∈ list_id <$> lists b)
  ∧ (x ∈ list_id <$> lists b → findContainer b x = Some x)
  ∧ (∀ c, (x ∉ list_id <$> lists b) → findContainer b x = Some c →
          ∃ k l, lists b !! k = Some l ∧ list_id l = c ∧ hasCard x l
                 ∧ ∀ k' l', lists b !! k' = Some l' → (k' < k)%nat →
                            ¬ hasCard x l')
  ∧ (findContainer b x = None ↔
       (x ∉ list_id <$> lists b) ∧ (x ∉ card_id <$> allCards b)).
Proof.
  pose proof (findContainer_card_owner b x) as Hcard.
  split; [|split; [|split]].
  - intros c Hc. destruct (decide (x ∈ list_id <$> lists b)) as [Hx|Hx].
    + rewrite findContainer_list_id in Hc by done. congruence.
    + destruct (Hcard c Hx Hc) as (k & l & Hl & <- & _).
      apply list_elem_of_fmap. exists l. split; [done|].
      by eapply list_elem_of_lookup_2.
  - apply findContainer_list_id.
  - intros c. apply Hcard.
  - split.
    + intros Hnone.
      assert (x ∉ list_id <$> lists b) as Hx.
      { intros Hx. by rewrite findContainer_list_id in Hnone. }
      split; [done|]. rewrite findContainer_card in Hnone by done.
      apply fmap_None, find_None in Hnone.
      intros (l & Hl & Hh)%hasCard_allCards.
      by apply (proj1 (Forall_forall _ _) Hnone l).
    + intros [Hx Hc]. rewrite findContainer_card by done.
      apply fmap_None, find_None, Forall_forall. intros l Hl Hh.
      apply Hc, hasCard_allCards. eauto.
Qed.

Lemma findContainer_locates_witness :
  findContainer (DEFAULT_BOARD "t" "t" "t") "list-3" = Some "list-3"
  ∧ "list-2" ∈ list_id <$> lists (DEFAULT_BOARD "t" "t" "t")
  ∧ ∃ k l, lists (DEFAULT_BOARD "t" "t" "t") !! k = Some l
           ∧ list_id l = "list-2" ∧ hasCard "card-3" l.
Proof.
  pose proof (findContainer_locates (DEFAULT_BOARD "t" "t" "t") "list-3")
    as (_ & Hlist & _ & _).
  pose proof (findContainer_locates (DEFAULT_BOARD "t" "t" "t") "card-3")
    as (Hin & _ & Hcard & _).
  split; [|split].
  - apply Hlist. apply (bool_decide_unpack _). vm_compute. exact I.
  - exact (Hin "list-2" eq_refl).
  - destruct (Hcard "list-2"
                ltac:(apply (bool_decide_unpack _); vm_compute; exact I)
                eq_refl) as (k & l & Hl & Hid & Hh & _).
    eauto.
Defined.

(** ** Hovering *)

Lemma handleDragOver_moves (event : DragEvent) (st : State) (ov : Over)
    (ac oc : Id) (s d : List) (i : nat) (c : Card) :
  over event = Some ov →
  activeType (session st) = Some TypeCard →
  findContainer (board st) (active_id (active event)) = Some ac →
  findContainer (board st) (over_id ov) = Some oc →
  ac ≠ EmptyString → oc ≠ EmptyString → ac ≠ oc →
  find (λ l, list_id l = ac) (lists (board st)) = Some s →
  find (λ l, list_id l = oc) (lists (board st)) = Some d →
  list_find (λ c, card_id c = active_id (active event)) (cards s)
    = Some (i, c) →
  handleDragOver event st =
    {| board :=
         moveCard ac oc (Z.of_nat i)
           (if bool_decide (over_id ov ∈ list_id <$> lists (board st))
            then Z.of_nat (length (cards d))
            else
              if bool_decide
                   (findIndex (λ c, card_id c = over_id ov) (cards d) >= 0)
              then findIndex (λ c, card_id c = over_id ov) (cards d)
                   + (if isBelowOverItem (active event) ov then 1 else 0)
              else Z.of_nat (length (cards d)))
           (board st);
       session :=
         {| activeId := activeId (session st);
            activeType := activeType (session st);
            lastOverId := lastOverId (session st);
            recentlyMovedToNewContainer := true |} |}.
Proof.
  intros Hov Hty Hac Hoc Hac0 Hoc0 Hne Hs Hd Hc.
  unfold handleDragOver. rewrite Hov, Hac, Hoc, Hs, Hd.
  rewrite (bool_decide_eq_true_2 _ Hty). cbn [negb truthy].
  rewrite (bool_decide_eq_false_2 _ Hac0), (bool_decide_eq_false_2 _ Hoc0).
  cbn [negb orb].
  rewrite bool_decide_eq_false_2 by congruence.
  assert (findIndex (λ c, card_id c = active_id (active event)) (cards s)
          = Z.of_nat i) as -> by (unfold findIndex; by rewrite Hc).
  by rewrite bool_decide_eq_false_2 by lia.
Qed.

(** X16. A hover never touches the board's id and title, nor the ids,
    titles and order of its lists, and it keeps the board's cards, moving
    at most one; of the session it can only raise the just-switched flag.
    Without an over target, or while no card is dragged, it changes
    nothing. *)
Theorem handleDragOver_frame (event : DragEvent) (st : State) :
  let st' := handleDragOver event st in
  board_id (board st') = board_id (board st)
  ∧ board_title (board st') = board_title (board st)
  ∧ list_id <$> lists (board st') = list_id <$> lists (board st)
  ∧ list_title <$> lists (board st') = list_title <$> lists (board st)
  ∧ allCards (board st') ≡ₚ allCards (board st)
  ∧ activeId (session st') = activeId (session st)
  ∧ activeType (session st') = activeType (session st)
  ∧ lastOverId (session st') = lastOverId (session st)
  ∧ (st' = st ∨ recentlyMovedToNewContainer (session st') = true)
  ∧ (over event = None ∨ activeType (session st) ≠ Some TypeCard → st' = st).
Proof.
  intros st'. unfold st'.
  assert (over event = None ∨ activeType (session st) ≠ Some TypeCard →
          handleDragOver event st = st) as Hidle.
  { intros [Hov|Hty]; unfold handleDragOver.
    - by rewrite Hov.
    - destruct (over event); [|done].
      by rewrite (bool_decide_eq_false_2 _ Hty). }
  destruct (handleDragOver_cases event st)
    as [->|(ov & ac & oc & s & d & i & c & k & _ & _ & _ & _ & _ & _ & _
            & _ & Heq)].
  { repeat split; (done || by left). }
  rewrite Heq. cbn [board session activeId activeType lastOverId
                     recentlyMovedToNewContainer].
  split; [by destruct (moveCard_cases ac oc (Z.of_nat i) k (board st))
            as [->|(sp & s0 & dp & d0 & c0 & Hs & Hd & Hi & Hc)];
            [|rewrite (moveCard_relocates _ _ _ _ _ _ _ _ _ _ Hs Hd Hi Hc)]|].
  split; [by destruct (moveCard_cases ac oc (Z.of_nat i) k (board st))
            as [->|(sp & s0 & dp & d0 & c0 & Hs & Hd & Hi & Hc)];
            [|rewrite (moveCard_relocates _ _ _ _ _ _ _ _ _ _ Hs Hd Hi Hc)]|].
  split; [apply moveCard_list_ids|].
  split; [apply moveCard_list_titles|].
  split; [apply moveCard_allCards|].
  split; [done|]. split; [done|]. split; [done|]. split; [by right|].
  rewrite <- Heq. exact Hidle.
Qed.

Lemma handleDragOver_frame_witness :
  handleDragOver (hoverEvent "c1" "B") (idle boardA) = idle boardA.
Proof.
  refine (proj2 (proj2 (proj2 (proj2 (proj2 (proj2 (proj2 (proj2 (proj2
    (handleDragOver_frame (hoverEvent "c1" "B") (idle boardA)))))))))) _).
  right. discriminate.
Defined.

(** X17. Hovering a dragged card over another list itself (its empty area)
    moves the card at once to the end of that list; an empty list gets it
    as its only card. The source list loses the card and the just-switched
    flag is raised. *)
Theorem hover_over_list_appends (event : DragEvent) (st : State) (ov : Over)
    (ac : Id) (sp dp : nat) (s d : List) (i : nat) (c : Card) :
  over event = Some ov →
  activeType (session st) = Some TypeCard →
  list_find (λ l, list_id l = over_id ov) (lists (board st)) = Some (dp, d) →
  over_id ov ≠ EmptyString →
  findContainer (board st) (active_id (active event)) = Some ac →
  ac ≠ EmptyString → ac ≠ over_id ov →
  list_find (λ l, list_id l = ac) (lists (board st)) = Some (sp, s) →
  list_find (λ c, card_id c = active_id (active event)) (cards s)
    = Some (i, c) →
  handleDragOver event st =
    {| board :=
         {| board_id := board_id (board st);
            board_title := board_title (board st);
            lists :=
              <[dp := with_cards (cards d ++ [c]) d]>
                (<[sp := with_cards (delete i (cards s)) s]>
                   (lists (board st))) |};
       session :=
         {| activeId := activeId (session st);
            activeType := activeType (session st);
            lastOverId := lastOverId (session st);
            recentlyMovedToNewContainer := true |} |}.
Proof.
  intros Hov Hty Hd Ho0 Hac Hac0 Hne Hs Hc.
  assert (over_id ov ∈ list_id <$> lists (board st)) as Hin.
  { apply list_find_Some in Hd as (Hd & Hid & _).
    apply list_elem_of_fmap. exists d. split; [done|].
    by eapply list_elem_of_lookup_2. }
  rewrite (handleDragOver_moves event st ov ac (over_id ov) s d i c);
    try done.
  - rewrite (bool_decide_eq_true_2 _ Hin). f_equal.
    pose proof Hc as Hc'. apply list_find_Some in Hc' as (Hci & _).
    rewrite (moveCard_relocates _ _ _ _ _ sp s dp d c Hs Hd);
      [|lia|by rewrite Nat2Z.id].
    cbv zeta. rewrite decide_False by done. rewrite Nat2Z.id.
    rewrite splice_insert_at, Z.min_id, actualStart_in_range by lia.
    by rewrite insert_at_end by lia.
  - by apply findContainer_list_id.
  - apply find_Some_list_find. eauto.
  - apply find_Some_list_find. eauto.
Qed.

Lemma hover_over_list_appends_witness :
  lists (board (handleDragOver (hoverEvent "c1" "B")
                  (dragging emptyListBoard "c1")))
    = [mkList "A" "List A" [card2]; mkList "B" "List B" [card1]].
Proof.
  rewrite (hover_over_list_appends (hoverEvent "c1" "B")
             (dragging emptyListBoard "c1") (mkOver "B" (mkRect 0 0 0 0))
             "A" 0%nat 1%nat (mkList "A" "List A" [card1; card2])
             (mkList "B" "List B" []) 0%nat card1);
    try reflexivity; discriminate.
Defined.





(** ** Dropping *)

Lemma findIndex_Some {A} (P : A → Prop) `{!∀ x, Decision (P x)}
    (l : list A) i x :
  list_find P l = Some (i, x) → findIndex P l = Z.of_nat i.
Proof. intros Hf. unfold findIndex. by rewrite Hf. Qed.

(** X20. Dropping a dragged list on another list puts it at the index that
    list had; the other lists keep their relative order, and the session
    returns to idle. *)
Theorem dragEnd_list_takes_place (event : DragEvent) (st : State) (ov : Over)
    (i j : nat) (x y : List) :
  over event = Some ov →
  active_type (active event) = Some TypeList →
  active_id (active event) ≠ over_id ov →
  list_find (λ l, list_id l = active_id (active event)) (lists (board st))
    = Some (i, x) →
  list_find (λ l, list_id l = over_id ov) (lists (board st)) = Some (j, y) →
  let newLists := insert_at j x (delete i (lists (board st))) in
  handleDragEnd event st =
    {| raw_board :=
         to_raw {| board_id := board_id (board st);
                   board_title := board_title (board st);
                   lists := newLists |};
       raw_session :=
         {| activeId := None; activeType := None;
            lastOverId := lastOverId (session st);
            recentlyMovedToNewContainer := false |} |}
  ∧ newLists !! j = Some x
  ∧ delete j newLists = delete i (lists (board st))
  ∧ newLists ≡ₚ lists (board st).
Proof.
  intros Hov Hty Hne Hi Hj newLists.
  pose proof Hi as Hi'. apply list_find_Some in Hi' as (Hx & _).
  pose proof Hj as Hj'. apply list_find_Some in Hj' as (Hy & _).
  assert (i < length (lists (board st)))%nat by (by eapply lookup_lt_Some).
  assert (j < length (lists (board st)))%nat by (by eapply lookup_lt_Some).
  assert (length (delete i (lists (board st)))
          = (length (lists (board st)) - 1)%nat) as Hlen
    by (rewrite length_delete; eauto).
  split; [|split; [|split]].
  - unfold handleDragEnd. rewrite Hov, Hty.
    rewrite (bool_decide_eq_true_2 _ Hne).
    rewrite (findIndex_Some _ _ _ _ Hi), (findIndex_Some _ _ _ _ Hj).
    rewrite bool_decide_eq_true_2 by lia. f_equal.
    rewrite (moveList_in_range _ _ _ x); [|lia|by rewrite Nat2Z.id|lia].
    by rewrite !Nat2Z.id.
  - apply insert_at_lookup. lia.
  - apply delete_insert_at. lia.
  - unfold newLists. rewrite insert_at_perm. symmetry.
    by apply delete_Permutation.
Qed.

Lemma dragEnd_list_takes_place_witness :
  raw_lists (raw_board (handleDragEnd
    (mkDragEvent (mkActive "L1" (Some TypeList) None)
       (Some (mkOver "L3" (mkRect 0 0 0 0))))
    (draggingList boardL "L1")))
    = [Some listL2; Some listL3; Some listL1].
Proof.
  rewrite (proj1 (dragEnd_list_takes_place
    (mkDragEvent (mkActive "L1" (Some TypeList) None)
       (Some (mkOver "L3" (mkRect 0 0 0 0))))
    (draggingList boardL "L1") (mkOver "L3" (mkRect 0 0 0 0))
    0%nat 2%nat listL1 listL3
    eq_refl eq_refl ltac:(discriminate) eq_refl eq_refl)).
  reflexivity.
Defined.

(** X21. Dropping a dragged card on another card of its own list puts it
    at the index that card had; the other cards of the list keep their
    relative order, the other lists are untouched, and the session
    returns to idle. *)
Theorem dragEnd_card_takes_place (event : DragEvent) (st : State) (ov : Over)
    (ac : Id) (p : nat) (l : List) (i j : nat) (c c' : Card) :
  over event = Some ov →
  active_type (active event) = Some TypeCard →
  findContainer (board st) (active_id (active event)) = Some ac →
  findContainer (board st) (over_id ov) = Some ac →
  ac ≠ EmptyString →
  list_find (λ l, list_id l = ac) (lists (board st)) = Some (p, l) →
  list_find (λ c, card_id c = active_id (active event)) (cards l)
    = Some (i, c) →
  list_find (λ c, card_id c = over_id ov) (cards l) = Some (j, c') →
  i ≠ j →
  let newCards := insert_at j c (delete i (cards l)) in
  handleDragEnd event st =
    {| raw_board :=
         to_raw {| board_id := board_id (board st);
                   board_title := board_title (board st);
                   lists := <[p := with_cards newCards l]> (lists (board st)) |};
       raw_session :=
         {| activeId := None; activeType := None;
            lastOverId := lastOverId (session st);
            recentlyMovedToNewContainer := false |} |}
  ∧ newCards !! j = Some c
  ∧ delete j newCards = delete i (cards l).
Proof.
  intros Hov Hty Hac Hoc Hac0 Hl Hi Hj Hne newCards.
  pose proof Hi as Hi'. apply list_find_Some in Hi' as (Hc & _).
  pose proof Hj as Hj'. apply list_find_Some in Hj' as (Hc' & _).
  assert (i < length (cards l))%nat by (by eapply lookup_lt_Some).
  assert (j < length (cards l))%nat by (by eapply lookup_lt_Some).
  assert (length (delete i (cards l)) = (length (cards l) - 1)%nat) as Hlen
    by (rewrite length_delete; eauto).
  split; [|split].
  - unfold handleDragEnd. rewrite Hov, Hty, Hac, Hoc.
    cbn [truthy]. rewrite (bool_decide_eq_false_2 _ Hac0). cbn [negb orb].
    rewrite bool_decide_eq_true_2 by done.
    assert (find (λ l, list_id l = ac) (lists (board st)) = Some l) as ->
      by (apply find_Some_list_find; eauto).
    rewrite (findIndex_Some _ _ _ _ Hi), (findIndex_Some _ _ _ _ Hj).
    rewrite bool_decide_eq_true_2 by lia. f_equal. f_equal.
    rewrite (moveCard_relocates _ _ _ _ _ p l p l c Hl Hl);
      [|lia|by rewrite Nat2Z.id].
    cbv zeta. rewrite decide_True by done. rewrite Nat2Z.id.
    rewrite list_insert_insert_eq, splice_insert_at.
    rewrite Z.min_l, actualStart_in_range by lia.
    by rewrite Nat2Z.id.
  - apply insert_at_lookup. lia.
  - apply delete_insert_at. lia.
Qed.

Lemma dragEnd_card_takes_place_witness :
  raw_lists (raw_board (handleDragEnd (hoverEvent "c1" "c2")
                          (dragging boardA "c1")))
    = [Some (mkList "A" "List A" [card2; card1]);
       Some (mkList "B" "List B" [card3])].
Proof.
  rewrite (proj1 (dragEnd_card_takes_place (hoverEvent "c1" "c2")
    (dragging boardA "c1") (mkOver "c2" (mkRect 0 0 0 0)) "A" 0%nat
    (mkList "A" "List A" [card1; card2]) 0%nat 1%nat card1 card2
    eq_refl eq_refl eq_refl eq_refl ltac:(discriminate) eq_refl eq_refl
    eq_refl ltac:(lia))).
  reflexivity.
Defined.

(** X22. [handleDragEnd] always returns the session to idle (active id and
    kind cleared, flag lowered, last over id kept) and leaves a board
    without empty cell holding the same lists and the same cards. The
    board is exactly as before when there is no over target, when a list
    is dropped on itself, and when a card is dropped on a target owned by
    another list. *)
Theorem dragEnd_resets (event : DragEvent) (st : State) :
  raw_session (handleDragEnd event st) =
    {| activeId := None; activeType := None;
       lastOverId := lastOverId (session st);
       recentlyMovedToNewContainer := false |}
  ∧ (∃ b', raw_board (handleDragEnd event st) = to_raw b'
           ∧ list_id <$> lists b' ≡ₚ list_id <$> lists (board st)
           ∧ allCards b' ≡ₚ allCards (board st))
  ∧ (over event = None →
     raw_board (handleDragEnd event st) = to_raw (board st))
  ∧ (∀ ov, over event = Some ov →
           active_type (active event) = Some TypeList →
           active_id (active event) = over_id ov →
           raw_board (handleDragEnd event st) = to_raw (board st))
  ∧ (∀ ov, over event = Some ov →
           active_type (active event) = Some TypeCard →
           findContainer (board st) (active_id (active event))
             ≠ findContainer (board st) (over_id ov) →
           raw_board (handleDragEnd event st) = to_raw (board st)).
Proof.
  split; [|split; [apply handleDragEnd_well_formed|split; [|split]]].
  - unfold handleDragEnd.
    destruct (over event) as [ov|]; [|done].
    destruct (active_type (active event)) as [[]|]; [| |done].
    + case_bool_decide; [|done]. by case_bool_decide.
    + destruct (_ || _); [done|]. case_bool_decide; [|done].
      destruct (findContainer _ _) as [ac|]; [|done].
      destruct (find _ _) as [l|]; [|done]. by case_bool_decide.
  - intros Hov. unfold handleDragEnd. by rewrite Hov.
  - intros ov Hov Hty Heq. unfold handleDragEnd. rewrite Hov, Hty.
    by rewrite bool_decide_eq_false_2 by (intros Hne; by apply Hne).
  - intros ov Hov Hty Hne. unfold handleDragEnd. rewrite Hov, Hty.
    destruct (_ || _); [done|].
    by rewrite (bool_decide_eq_false_2 _ Hne).
Qed.

Lemma dragEnd_resets_witness :
  raw_board (handleDragEnd (mkDragEvent (mkActive "c1" (Some TypeCard) None)
                              None) (dragging boardA "c1"))
    = to_raw boardA
  ∧ raw_board (handleDragEnd (hoverEvent "c1" "c3") (dragging boardA "c1"))
    = to_raw boardA.
Proof.
  split.
  - exact (proj1 (proj2 (proj2 (dragEnd_resets
      (mkDragEvent (mkActive "c1" (Some TypeCard) None) None)
      (dragging boardA "c1")))) eq_refl).
  - refine (proj2 (proj2 (proj2 (proj2 (dragEnd_resets
      (hoverEvent "c1" "c3") (dragging boardA "c1")))))
      (mkOver "c3" (mkRect 0 0 0 0)) eq_refl eq_refl _).
    discriminate.
Defined.

(** * Further properties of the collision resolver *)

(** X23. Unless a list is dragged, the resolver returns at most one
    candidate, and whenever it returns one it has recorded that id as the
    last over id. It never changes the board, the active id and kind, or
    the just-switched flag. *)
Theorem card_drag_single_target
    (closestCenter pointerWithin rectIntersection
       : CollisionArgs → list Collision)
    (args : CollisionArgs) (st : State) :
  activeType (session st) ≠ Some TypeList →
  let result :=
    collisionDetectionStrategy closestCenter pointerWithin rectIntersection
      args st in
  (length result.1 ≤ 1)%nat
  ∧ (∀ c, c ∈ result.1 →
          lastOverId (session result.2) = Some (collision_id c))
  ∧ board result.2 = board st
  ∧ activeId (session result.2) = activeId (session st)
  ∧ activeType (session result.2) = activeType (session st)
  ∧ recentlyMovedToNewContainer (session result.2)
    = recentlyMovedToNewContainer (session st).
Proof.
  intros Hty result. unfold result, collisionDetectionStrategy.
  rewrite (bool_decide_eq_false_2 _ Hty).
  destruct (getFirstCollision _) as [o|]; cbn [fst snd].
  - split; [simpl; lia|]. split; [|done].
    intros c ->%list_elem_of_singleton. done.
  - destruct (if recentlyMovedToNewContainer (session st)
              then activeId (session st) else lastOverId (session st))
      as [id|] eqn:E; cbn [truthy].
    + destruct (negb _); cbn [board session lastOverId activeId activeType
                               recentlyMovedToNewContainer].
      * split; [simpl; lia|]. split; [|done].
        intros c ->%list_elem_of_singleton. done.
      * split; [simpl; lia|]. split; [|done]. by intros c []%elem_of_nil.
    + split; [simpl; lia|]. split; [|done]. by intros c []%elem_of_nil.
Qed.

Lemma card_drag_single_target_witness :
  (length (collisionDetectionStrategy closestCenterRanking
             (λ _, [mkCollision "c3" None; mkCollision "B" None]) (λ _, [])
             sampleArgs (dragging boardA "c1")).1 ≤ 1)%nat.
Proof.
  refine (proj1 (card_drag_single_target closestCenterRanking
            (λ _, [mkCollision "c3" None; mkCollision "B" None]) (λ _, [])
            sampleArgs (dragging boardA "c1") _)).
  discriminate.
Defined.

(** X24. When neither the pointer nor the dragged rectangle hits any
    droppable container, the resolver falls back: if the card has not just
    switched container it re-emits the last over id and leaves the session
    as it is; if it has, it takes the active id as the last over id and
    emits that. An absent or empty id is never emitted. *)
Theorem resolver_falls_back
    (closestCenter pointerWithin rectIntersection
       : CollisionArgs → list Collision)
    (args : CollisionArgs) (st : State) :
  activeType (session st) ≠ Some TypeList →
  pointerWithin args = [] → rectIntersection args = [] →
  let result :=
    collisionDetectionStrategy closestCenter pointerWithin rectIntersection
      args st in
  let emit := λ last : option Id,
    match last with
    | Some id => if bool_decide (id = EmptyString) then []
                 else [mkCollision id None]
    | None => []
    end in
  (recentlyMovedToNewContainer (session st) = false →
   result = (emit (lastOverId (session st)), st))
  ∧ (recentlyMovedToNewContainer (session st) = true →
     result.1 = emit (activeId (session st))
     ∧ lastOverId (session result.2) = activeId (session st))
  ∧ (∀ c, c ∈ result.1 → collision_id c ≠ EmptyString).
Proof.
  intros Hty Hpw Hri result emit.
  assert (result =
    let last := if recentlyMovedToNewContainer (session st)
                then activeId (session st) else lastOverId (session st) in
    (emit last,
     {| board := board st;
        session := {| activeId := activeId (session st);
                      activeType := activeType (session st);
                      lastOverId := last;
                      recentlyMovedToNewContainer :=
                        recentlyMovedToNewContainer (session st) |} |}))
    as Hres.
  { unfold result, collisionDetectionStrategy.
    rewrite (bool_decide_eq_false_2 _ Hty), Hpw, Hri. cbn zeta.
    rewrite bool_decide_eq_false_2 by (simpl; lia).
    cbn [getFirstCollision head fmap option_fmap option_map].
    f_equal. unfold emit.
    destruct (if recentlyMovedToNewContainer (session st)
              then activeId (session st) else lastOverId (session st))
      as [id|]; cbn [truthy]; [|done].
    by case_bool_decide. }
  rewrite Hres. cbv zeta. split; [|split].
  - intros Hrm. destruct st as [b [a t l r]]. cbn in *. by subst r.
  - intros Hrm. by rewrite Hrm.
  - intros c Hc. cbn [fst] in Hc. unfold emit in Hc.
    destruct (if recentlyMovedToNewContainer (session st)
              then activeId (session st) else lastOverId (session st))
      as [id|]; [|by apply elem_of_nil in Hc].
    case_bool_decide; [by apply elem_of_nil in Hc|].
    by apply list_elem_of_singleton in Hc as ->.
Qed.

Lemma resolver_falls_back_witness :
  collisionDetectionStrategy closestCenterRanking (λ _, []) (λ _, [])
    sampleArgs afterHover
    = ([mkCollision "c3" None], afterHover).
Proof.
  refine (proj1 (resolver_falls_back closestCenterRanking (λ _, []) (λ _, [])
                   sampleArgs afterHover _ eq_refl eq_refl) eq_refl).
  discriminate.
Defined.

(** X25. While a card is dragged and some container is hit, the resolver
    returns exactly one candidate. It is the first hit itself when that is
    not a list or is an empty list; when the first hit is a list with
    cards, it is either that list or, by [closestCenter]'s choice, the id
    of a droppable card of that very list. *)
Theorem resolver_refines_into_list
    (closestCenter pointerWithin rectIntersection
       : CollisionArgs → list Collision)
    (args : CollisionArgs) (st : State) (o : Id) :
  (∀ args c, c ∈ closestCenter args →
             collision_id c ∈ droppable_id <$> droppableContainers args) →
  activeType (session st) ≠ Some TypeList →
  getFirstCollision
    (if bool_decide (0 < length (pointerWithin args))%nat
     then pointerWithin args else rectIntersection args) = Some o →
  let result :=
    collisionDetectionStrategy closestCenter pointerWithin rectIntersection
      args st in
  ∃ r, result.1 = [mkCollision r None]
       ∧ lastOverId (session result.2) = Some r
       ∧ ((o ∉ list_id <$> lists (board st)) → r = o)
       ∧ (∀ l, find (λ l, list_id l = o) (lists (board st)) = Some l →
               r = o
               ∨ (r ∈ card_id <$> cards l
                  ∧ r ∈ droppable_id <$> droppableContainers args))
       ∧ (∀ l, find (λ l, list_id l = o) (lists (board st)) = Some l →
               cards l = [] → r = o).
Proof.
  intros Hcc Hty Hfirst result. unfold result, collisionDetectionStrategy.
  rewrite (bool_decide_eq_false_2 _ Hty). cbv zeta. rewrite Hfirst.
  eexists. split; [reflexivity|]. split; [reflexivity|].
  split; [|split].
  - intros Hnl. by rewrite (bool_decide_eq_false_2 _ Hnl).
  - intros l Hl. rewrite Hl.
    destruct (bool_decide (o ∈ list_id <$> lists (board st))); [|by left].
    destruct (bool_decide (0 < length (cards l))%nat); [|by left].
    destruct (closestCenter _) as [|first rest] eqn:E; [by left|].
    right.
    assert (first ∈ closestCenter
              (withContainers args
                 (filter (λ container,
                            droppable_id container ∈ card_id <$> cards l)
                    (droppableContainers args)))) as Hin
      by (rewrite E; apply list_elem_of_here).
    apply Hcc in Hin. cbn [droppableContainers withContainers] in Hin.
    apply list_elem_of_fmap in Hin as (dc & -> & [Hc Hdc]%list_elem_of_filter).
    split; [done|]. apply list_elem_of_fmap. eauto.
  - intros l Hl Hempty. rewrite Hl, Hempty.
    destruct (bool_decide (o ∈ list_id <$> lists (board st))); [|done].
    by rewrite bool_decide_eq_false_2 by (simpl; lia).
Qed.

Lemma resolver_refines_into_list_witness :
  ∃ r, (collisionDetectionStrategy closestCenterRanking
          (λ _, [mkCollision "A" None]) (λ _, []) cardArgs
          (dragging boardA "c3")).1 = [mkCollision r None]
       ∧ (r = "A" ∨ r ∈ card_id <$> [card1; card2]).
Proof.
  destruct (resolver_refines_into_list closestCenterRanking
              (λ _, [mkCollision "A" None]) (λ _, []) cardArgs
              (dragging boardA "c3") "A" closestCenterRanking_given
              ltac:(discriminate) eq_refl) as (r & Hr & _ & _ & Hin & _).
  exists r. split; [exact Hr|].
  destruct (Hin (mkList "A" "List A" [card1; card2]) eq_refl)
    as [->|[Hc _]]; [by left | by right].
Defined.

(** * Properties of the drag overlay *)

Lemma findCardIn_find (id : Id) (ls : list List) :
  findCardIn id ls = find (λ c, card_id c = id) (ls ≫= cards).
Proof.
  induction ls as [|l ls IH]; [done|]. rewrite bind_cons. simpl.
  destruct (find (λ c, card_id c = id) (cards l)) as [c|] eqn:E.
  - symmetry. by apply find_app_l.
  - rewrite find_app_r by done. exact IH.
Qed.

Lemma find_card_perm (id : Id) (cs cs' : list Card) :
  NoDup (card_id <$> cs) → cs ≡ₚ cs' →
  find (λ c, card_id c = id) cs' = find (λ c, card_id c = id) cs.
Proof.
  intros Hnd Hp.
  destruct (find (λ c, card_id c = id) cs) as [x|] eqn:Ex.
  - apply find_Some_elem in Ex as [Hx Hxid].
    destruct (find (λ c, card_id c = id) cs') as [y|] eqn:Ey.
    + apply find_Some_elem in Ey as [Hy Hyid]. f_equal.
      apply (unique_by_id cs); [done | by rewrite Hp | done | congruence].
    + apply find_None in Ey. rewrite <- Hp in Ey.
      by destruct (proj1 (Forall_forall _ _) Ey x Hx).
  - apply find_None in Ex. apply find_None. by rewrite <- Hp.
Qed.

(** X26. The drag overlay shows at most one item: a card only while a card
    is dragged, a list only while a list is dragged, and in each case an
    item of the board whose id is the active id. On a board with unique
    card ids, hovers do not change the card shown. *)
Theorem overlay_shows_dragged_item (st : State) :
  (activeCard st = None ∨ activeList st = None)
  ∧ (∀ c, activeCard st = Some c →
          activeType (session st) = Some TypeCard
          ∧ activeId (session st) = Some (card_id c)
          ∧ c ∈ allCards (board st))
  ∧ (∀ l, activeList st = Some l →
          activeType (session st) = Some TypeList
          ∧ activeId (session st) = Some (list_id l)
          ∧ l ∈ lists (board st))
  ∧ (∀ event, uniqueCardIds (board st) →
              activeCard (handleDragOver event st) = activeCard st).
Proof.
  split; [|split; [|split]].
  - unfold activeCard, activeList.
    destruct (decide (activeType (session st) = Some TypeCard)) as [Hty|Hty].
    + right. rewrite Hty. by rewrite bool_decide_eq_false_2.
    + left. by rewrite (bool_decide_eq_false_2 _ Hty).
  - intros c. unfold activeCard. case_bool_decide as Hty; [|done].
    destruct (activeId (session st)) as [id|]; [|done]. cbn [negb orb].
    destruct (negb (truthy (Some id))); [done|].
    rewrite findCardIn_find. intros [Hc Hid]%find_Some_elem.
    by rewrite Hid.
  - intros l. unfold activeList. case_bool_decide as Hty; [|done].
    destruct (activeId (session st)) as [id|]; [|done]. cbn [negb orb].
    destruct (negb (truthy (Some id))); [done|].
    intros [Hl Hid]%find_Some_elem. by rewrite Hid.
  - intros event Hnd.
    destruct (handleDragOver_cases event st)
      as [->|(ov & ac & oc & s & d & i & c & k & _ & _ & _ & _ & _ & _ & _
              & _ & ->)]; [done|].
    unfold activeCard. cbn [session board activeId activeType].
    destruct (_ || _); [done|].
    destruct (activeId (session st)) as [id|]; [|done].
    rewrite !findCardIn_find. apply find_card_perm; [done|].
    symmetry. apply moveCard_allCards.
Qed.

Lemma overlay_shows_dragged_item_witness :
  activeCard (handleDragOver (hoverEvent "c1" "B") (dragging boardA "c1"))
    = Some card1.
Proof.
  rewrite (proj2 (proj2 (proj2
    (overlay_shows_dragged_item (dragging boardA "c1"))))
    (hoverEvent "c1" "B")
    ltac:(apply (bool_decide_unpack _); vm_compute; exact I)).
  reflexivity.
Defined.

(** * A whole drag *)

Lemma hovers_keep (events : list DragEvent) (st : State) :
  let st' := foldl (λ s e, handleDragOver e s) st events in
  list_id <$> lists (board st') = list_id <$> lists (board st)
  ∧ list_title <$> lists (board st') = list_title <$> lists (board st)
  ∧ allCards (board st') ≡ₚ allCards (board st)
  ∧ activeId (session st') = activeId (session st)
  ∧ activeType (session st') = activeType (session st)
  ∧ (activeType (session st) ≠ Some TypeCard → st' = st).
Proof.
  revert st. induction events as [|e events IH]; intros st; [done|].
  cbn [foldl]. cbv zeta.
  destruct (IH (handleDragOver e st)) as (H1 & H2 & H3 & H4 & H5 & H6).
  cbv zeta in *.
  assert (handleDragOver e st = st
          ∨ ∃ a b i k,
              activeType (session st) = Some TypeCard
              ∧ handleDragOver e st =
                  {| board := moveCard a b i k (board st);
                     session :=
                       {| activeId := activeId (session st);
                          activeType := activeType (session st);
                          lastOverId := lastOverId (session st);
                          recentlyMovedToNewContainer := true |} |})
    as [Heq|(a & b & i & k & Hty & Heq)].
  { destruct (handleDragOver_cases e st)
      as [?|(ov & ac & oc & s & d & i & c & k & _ & Hty & _ & _ & _ & _
             & _ & _ & Heq)]; [by left|right; eauto 10]. }
  - rewrite Heq in *. done.
  - rewrite Heq in *. cbn [board session activeId activeType] in *.
    rewrite H1, H2, H3, H4, H5.
    split; [apply moveCard_list_ids|].
    split; [apply moveCard_list_titles|].
    split; [apply moveCard_allCards|].
    split; [done|]. split; [done|]. intros Hn. by destruct Hn.
Qed.

(** X27. Over a whole cancelled drag (start, any sequence of hovers,
    cancel) the board keeps its lists, with their ids, titles and order,
    and its cards, and the session ends idle. When the dragged item is a
    list, the board is exactly the board the drag started on. *)
Theorem cancelled_drag_conserves (start : DragEvent)
    (hovers : list DragEvent) (st : State) :
  let final :=
    handleDragCancel
      (foldl (λ s e, handleDragOver e s) (handleDragStart start st) hovers) in
  list_id <$> lists (board final) = list_id <$> lists (board st)
  ∧ list_title <$> lists (board final) = list_title <$> lists (board st)
  ∧ allCards (board final) ≡ₚ allCards (board st)
  ∧ activeId (session final) = None
  ∧ activeType (session final) = None
  ∧ recentlyMovedToNewContainer (session final) = false
  ∧ (active_type (active start) = Some TypeList → board final = board st).
Proof.
  intros final. unfold final, handleDragCancel.
  cbn [board session activeId activeType recentlyMovedToNewContainer].
  destruct (hovers_keep hovers (handleDragStart start st))
    as (H1 & H2 & H3 & _ & _ & H6). cbv zeta in *.
  assert (board (handleDragStart start st) = board st) as Hb.
  { unfold handleDragStart.
    by destruct (active_type (active start)) as [[]|]. }
  rewrite Hb in *.
  split; [done|]. split; [done|]. split; [done|].
  split; [done|]. split; [done|]. split; [done|].
  intros Hty. rewrite H6; [done|].
  unfold handleDragStart. rewrite Hty. cbn [session activeType]. discriminate.
Qed.

Lemma cancelled_drag_conserves_witness :
  board (handleDragCancel
           (foldl (λ s e, handleDragOver e s)
              (handleDragStart
                 (mkDragEvent (mkActive "A" (Some TypeList) None) None)
                 (idle boardA))
              [hoverEvent "A" "B"; hoverEvent "c1" "B"]))
    = boardA.
Proof.
  exact (proj2 (proj2 (proj2 (proj2 (proj2 (proj2
    (cancelled_drag_conserves
       (mkDragEvent (mkActive "A" (Some TypeList) None) None)
       [hoverEvent "A" "B"; hoverEvent "c1" "B"] (idle boardA)))))))
    eq_refl).
Defined.
